(** * go-stackerr: stacks, stack sets and wrapped errors

    A shallow embedding of [stack.go] and [error.go] of
    Invicton-Labs/go-stackerr, with the properties of the package's
    specification stated and settled against it.

    Conventions of the embedding:
    - a Go [string] is a Rocq [string] (a sequence of bytes);
    - a Go [int] is a [Z] (no function of the package does arithmetic on a
      line number, they are only compared and printed);
    - a slice is a [list]; indexing is stdpp's [!!];
    - [map[string]any] is a [gmap string any];
    - a nilable interface value is an [option]. *)

From Stdlib Require Import ZArith String Ascii List Bool Lia.
From Stdlib Require Import DecimalString.
From Stdlib Require DecimalZ DecimalPos.
From stdpp Require Import base option list strings gmap.

Local Open Scope string_scope.
Local Open Scope list_scope.
Local Open Scope Z_scope.

(** ** Frames, stacks and stack sets ([stack.go]) *)

(** [runtime.Frame].  The package reads three of its fields: [Function],
    [File] and [Line]; these are the Frame of the data model. *)
Record Frame : Type := mkFrame {
  Function : string;
  File : string;
  Line : Z
}.

(** [type Stack []runtime.Frame] and [type Stacks []Stack]. *)
Definition Stack : Type := list Frame.
Definition Stacks : Type := list Stack.

Definition zeroFrame : Frame := mkFrame "" "" 0.

#[global] Instance Frame_eq_dec : EqDecision Frame.
Proof. solve_decision. Defined.

Definition NewStack (frames : list Frame) : Stack := frames.
Definition NewStacks (stacks : list Stack) : Stacks := stacks.

(** [NewStacksFromFrames]: the loop appends every element in order. *)
Definition NewStacksFromFrames (stacks : list (list Frame)) : Stacks :=
  fold_left (fun stks s => stks ++ [s]) stacks [].

(** *** [Stack.IsParentOf] *)

(** One pass of the body of the [for offset := 1; offset <= len(parent)]
    loop: [None] when the body falls through to the next iteration,
    [Some b] when it returns [b].  Both indices are in range whenever the
    loop runs (see [IsParentOf_indices_in_range]); the last branch is what
    the embedding answers outside that range, where Go would panic. *)
Definition IsParentOf_body (parent child : Stack) (offset : nat) : option bool :=
  match parent !! (length parent - offset)%nat,
        child !! (length child - offset)%nat with
  | Some pFrame, Some cFrame =>
      if negb (String.eqb (Function pFrame) (Function cFrame))
         || negb (String.eqb (File pFrame) (File cFrame))
         || (Line pFrame <? Line cFrame)
      then Some false
      else if negb (Nat.eqb offset (length parent))
              && negb (Line pFrame =? Line cFrame)
      then Some false
      else None
  | _, _ => Some false
  end.

(** The loop itself; [todo] counts the iterations left, so that the loop
    runs for [offset, offset+1, ..., offset+todo-1]. *)
Fixpoint IsParentOf_loop (parent child : Stack) (todo offset : nat) : bool :=
  match todo with
  | O => true
  | S todo' =>
      match IsParentOf_body parent child offset with
      | Some b => b
      | None => IsParentOf_loop parent child todo' (S offset)
      end
  end.

Definition IsParentOf (parent child : Stack) : bool :=
  if (length child <? length parent)%nat then false
  else IsParentOf_loop parent child (length parent) 1.

(** *** [Stacks.RemoveParents] *)

(** The inner loop [for j := i + 1; j < len(s); j++], over the stacks that
    follow position [i]. *)
Fixpoint hasChild (stack : Stack) (later : list Stack) : bool :=
  match later with
  | [] => false
  | c :: later' => if IsParentOf stack c then true else hasChild stack later'
  end.

Fixpoint RemoveParents (s : Stacks) : Stacks :=
  match s with
  | [] => []
  | stack :: later =>
      if hasChild stack later then RemoveParents later
      else stack :: RemoveParents later
  end.

(** The contract of [IsParentOf] in the words of the specification:
    [d] is the relative position, 1 for the outermost frame of [parent]
    and [length parent] for its innermost one. *)
Definition frames_at (parent child : Stack) (d : nat) (p c : Frame) : Prop :=
  parent !! (length parent - d)%nat = Some p /\
  child !! (length child - d)%nat = Some c.

Definition parent_contract (parent child : Stack) : Prop :=
  (length parent <= length child)%nat /\
  forall d : nat, (1 <= d <= length parent)%nat ->
    exists p c : Frame,
      frames_at parent child d p c /\
      Function p = Function c /\
      File p = File c /\
      (d <> length parent -> Line p = Line c) /\
      (d = length parent -> Line p >= Line c).

(** Scenario B of the specification. *)
Definition scenarioB_parent : Stack :=
  [mkFrame "f" "a.go" 10; mkFrame "main" "a.go" 5].
Definition scenarioB_child : Stack :=
  [mkFrame "g" "b.go" 20; mkFrame "f" "a.go" 10; mkFrame "main" "a.go" 5].

(** ** Formatting ([Stack.Format], [Stacks.Format]) *)

(** The characters the package writes and reads by escape sequence. *)
Definition LF : ascii := "010"%char.
Definition TAB : ascii := "009"%char.
Definition CR : ascii := "013"%char.
Definition QUOTE : ascii := "034"%char.
Definition BACKSLASH : ascii := "092"%char.
Definition nl : string := String LF "".

(** [const stackDivider] of error.go: 38 equals signs. *)
Definition stackDivider : string := "======================================".

(** [strings.HasPrefix(s, prefix)]. *)
Definition strings_HasPrefix (s prefix : string) : bool := String.prefix prefix s.

(** The verb [%d] of [fmt] on an [int]: decimal digits, with a leading
    minus sign for a negative number. *)
Definition fmt_d (n : Z) : string := NilZero.string_of_int (Z.to_int n).

(** [fmt.Sprintf("%s\n\t%s:%d", frame.Function, frame.File, frame.Line)]. *)
Definition Sprintf_frame (frame : Frame) : string :=
  Function frame +:+ nl +:+ String TAB "" +:+ File frame +:+ ":" +:+ fmt_d (Line frame).

(** [Stack.trimStack]: [lastFrameIdx] moves down from [len(s) - 1] while the
    frame it points at has a function name that starts with "runtime.".
    [trimStack_loop s n] is the final value of [lastFrameIdx + 1] when the
    loop is entered with [lastFrameIdx + 1 = n]. *)
Fixpoint trimStack_loop (s : Stack) (n : nat) : nat :=
  match n with
  | O => O
  | S lastFrameIdx =>
      match s !! lastFrameIdx with
      | Some frame =>
          if strings_HasPrefix (Function frame) "runtime."
          then trimStack_loop s lastFrameIdx
          else n
      | None => n
      end
  end.

Definition trimStack (s : Stack) : Stack :=
  take (trimStack_loop s (length s)) s.

(** The loop of [Stack.Format] over [ts]: [i] is the index of the first
    frame of [rest], [len_ts] is [len(ts)]. *)
Fixpoint Stack_Format_loop (len_ts : Z) (i : Z) (rest : list Frame) (res : string) : string :=
  match rest with
  | [] => res
  | frame :: rest' =>
      let res := res +:+ Sprintf_frame frame in
      let res := if negb (i =? len_ts - 1) then res +:+ nl else res in
      Stack_Format_loop len_ts (i + 1) rest' res
  end.

Definition Stack_Format (s : Stack) : string :=
  let ts := trimStack s in
  Stack_Format_loop (Z.of_nat (length ts)) 0 ts "".

(** The loop of [Stacks.Format]. *)
Fixpoint Stacks_Format_loop (len_s : Z) (i : Z) (rest : list Stack) (ret : string) : string :=
  match rest with
  | [] => ret
  | stack :: rest' =>
      let ret := ret +:+ (Stack_Format stack +:+ nl +:+ stackDivider) in
      let ret := if negb (i =? len_s - 1) then ret +:+ nl else ret in
      Stacks_Format_loop len_s (i + 1) rest' ret
  end.

Definition Stacks_Format (s : Stacks) : string :=
  Stacks_Format_loop (Z.of_nat (length s)) 0 s (stackDivider +:+ nl).

(** What [Stacks.Format] appends for one stack. *)
Definition stack_piece (stack : Stack) : string :=
  Stack_Format stack +:+ nl +:+ stackDivider.

(** ** Library functions used by [ParseStacks] *)

(** [strings.ReplaceAll(s, old, new)] for a non-empty [old]: the
    occurrences of [old] are replaced from left to right, without overlap.
    [skip] counts the bytes of a replaced occurrence still to be passed. *)
Fixpoint ReplaceAll_loop (old new : string) (skip : nat) (s : string) : string :=
  match s with
  | EmptyString => EmptyString
  | String c s' =>
      match skip with
      | S k => ReplaceAll_loop old new k s'
      | O =>
          if String.prefix old s
          then new +:+ ReplaceAll_loop old new (String.length old - 1) s'
          else String c (ReplaceAll_loop old new O s')
      end
  end.

Definition strings_ReplaceAll (s old new : string) : string :=
  ReplaceAll_loop old new O s.

(** [strings.Split(s, sep)] for a non-empty [sep]; [cur] is the piece read
    so far. *)
Fixpoint Split_loop (sep : string) (cur : string) (skip : nat) (s : string) : list string :=
  match s with
  | EmptyString => [cur]
  | String c s' =>
      match skip with
      | S k => Split_loop sep cur k s'
      | O =>
          if String.prefix sep s
          then cur :: Split_loop sep "" (String.length sep - 1) s'
          else Split_loop sep (cur +:+ String c "") O s'
      end
  end.

Definition strings_Split (s sep : string) : list string :=
  Split_loop sep "" O s.

(** [strings.Contains(s, substr)]. *)
Definition strings_Contains (s substr : string) : bool :=
  match String.index 0 substr s with Some _ => true | None => false end.

(** [strconv.ParseInt(s, 10, 32)], of which [ParseStacks] keeps the value
    and drops the error: a syntax error gives 0, a value out of the range
    of [int32] gives the nearest bound. *)
Definition digit_value (c : ascii) : option Z :=
  let n := Z.of_nat (nat_of_ascii c) in
  if (48 <=? n) && (n <=? 57) then Some (n - 48) else None.

Fixpoint digits_value (acc : Z) (s : string) : option Z :=
  match s with
  | EmptyString => Some acc
  | String c s' =>
      match digit_value c with
      | Some d => digits_value (10 * acc + d) s'
      | None => None
      end
  end.

Definition strconv_ParseInt32 (s : string) : Z :=
  let '(neg, body) :=
    match s with
    | String "+" s' => (false, s')
    | String "-" s' => (true, s')
    | _ => (false, s)
    end in
  match body with
  | EmptyString => 0
  | _ =>
      match digits_value 0 body with
      | None => 0
      | Some un =>
          if neg then Z.max (- un) (- 2 ^ 31) else Z.min un (2 ^ 31 - 1)
      end
  end.

(** ** The console pattern

    [regexp.MustCompile] of
    [(?m)^[ \t]*([^\n]+)\n[ \t]+([^\n]+):([0-9]+)[ \t]*$].

    The pattern is a sequence of anchors, literals, character classes under
    a greedy [*] or [+], and capture groups around single items, so a
    sequence of such items with group marks is all the syntax needed.  The
    matcher is a backtracking search that tries the longer repetition
    first: the leftmost-first match and submatches that Go's [regexp]
    reports. *)
Inductive re_item : Type :=
  | BeginLine                      (* ^ under (?m) *)
  | EndLine                        (* $ under (?m) *)
  | Lit (c : ascii)
  | Star (cls : ascii -> bool)     (* [cls]* *)
  | Plus (cls : ascii -> bool)     (* [cls]+ *)
  | Open (group : nat)             (* "(" of a capture group *)
  | Close (group : nat).           (* ")" of a capture group *)

(** Submatch positions: for each group, where it opened and closed. *)
Record captures : Type := mkCaptures {
  opened : list (nat * nat);
  closed : list (nat * nat)
}.

Definition no_captures : captures := mkCaptures [] [].

Definition ascii_is (c x : ascii) : bool := Ascii.eqb x c.
Definition is_blank (x : ascii) : bool := ascii_is " " x || ascii_is TAB x.
Definition not_LF (x : ascii) : bool := negb (ascii_is LF x).
Definition is_digit (x : ascii) : bool :=
  match digit_value x with Some _ => true | None => false end.

(** Greedy repetition of a class, then the continuation [k]; one byte less
    is tried when the continuation fails.  [prev] is the byte before the
    current position, [pos] the position. *)
Fixpoint re_star {R : Type} (cls : ascii -> bool)
    (k : option ascii -> string -> nat -> option R)
    (prev : option ascii) (s : string) (pos : nat) : option R :=
  match s with
  | String x s' =>
      if cls x then
        match re_star cls k (Some x) s' (S pos) with
        | Some r => Some r
        | None => k prev s pos
        end
      else k prev s pos
  | EmptyString => k prev s pos
  end.

Definition set_group (group pos : nat) (l : list (nat * nat)) : list (nat * nat) :=
  (group, pos) :: l.

Fixpoint get_group (group : nat) (l : list (nat * nat)) : option nat :=
  match l with
  | [] => None
  | (g, pos) :: l' => if Nat.eqb g group then Some pos else get_group group l'
  end.

(** A match of [items] that starts at the current position: the position
    where it ends and the submatch positions. *)
Fixpoint re_match (items : list re_item) (caps : captures)
    (prev : option ascii) (s : string) (pos : nat) : option (nat * captures) :=
  match items with
  | [] => Some (pos, caps)
  | BeginLine :: items' =>
      match prev with
      | None => re_match items' caps prev s pos
      | Some p => if ascii_is LF p then re_match items' caps prev s pos else None
      end
  | EndLine :: items' =>
      match s with
      | EmptyString => re_match items' caps prev s pos
      | String x _ => if ascii_is LF x then re_match items' caps prev s pos else None
      end
  | Lit c :: items' =>
      match s with
      | String x s' => if ascii_is c x then re_match items' caps (Some x) s' (S pos) else None
      | EmptyString => None
      end
  | Star cls :: items' => re_star cls (re_match items' caps) prev s pos
  | Plus cls :: items' =>
      match s with
      | String x s' =>
          if cls x then re_star cls (re_match items' caps) (Some x) s' (S pos) else None
      | EmptyString => None
      end
  | Open g :: items' =>
      re_match items' (mkCaptures (set_group g pos (opened caps)) (closed caps)) prev s pos
  | Close g :: items' =>
      re_match items' (mkCaptures (opened caps) (set_group g pos (closed caps))) prev s pos
  end.

Definition consoleStackRegexp : list re_item :=
  [BeginLine; Star is_blank;
   Open 1; Plus not_LF; Close 1;
   Lit LF; Plus is_blank;
   Open 2; Plus not_LF; Close 2;
   Lit ":";
   Open 3; Plus is_digit; Close 3;
   Star is_blank; EndLine].

(** The text of a group of a match on [text]. *)
Definition submatch (text : string) (caps : captures) (group : nat) : string :=
  match get_group group (opened caps), get_group group (closed caps) with
  | Some b, Some e => String.substring b (e - b) text
  | _, _ => ""
  end.

(** The successive matches of [FindAllStringSubmatch(text, -1)] for a
    pattern without empty matches: the leftmost match from the current
    position, then the search goes on where that match ended.  [skip]
    counts the bytes of the last match still to be passed. *)
Fixpoint FindAll_loop (items : list re_item) (text : string)
    (prev : option ascii) (s : string) (pos skip : nat) : list (list string) :=
  match s with
  | EmptyString => []
  | String x s' =>
      match skip with
      | S k => FindAll_loop items text (Some x) s' (S pos) k
      | O =>
          match re_match items no_captures prev s pos with
          | Some (e, caps) =>
              [String.substring pos (e - pos) text;
               submatch text caps 1; submatch text caps 2; submatch text caps 3]
              :: FindAll_loop items text (Some x) s' (S pos) (e - pos - 1)
          | None => FindAll_loop items text (Some x) s' (S pos) O
          end
      end
  end.

Definition FindAllStringSubmatch (items : list re_item) (text : string) : list (list string) :=
  FindAll_loop items text None text O O.

(** ** The structured form: a model of [encoding/json]

    [json.Unmarshal] and [json.Marshal] belong to Go's standard library.
    What follows models them on the two types this package hands to them,
    [*Stacks] as a decoding target and [[]jsonFrame] as an encoding source:
    the JSON grammar, then the decoding that the types direct.  Bytes
    above 127 inside a string are kept as they are (the library replaces
    ill-formed UTF-8 by U+FFFD), and the library's bound on the nesting
    depth is left out. *)
#[warnings="-register-all"]
Inductive jvalue : Type :=
  | JNull
  | JBool (b : bool)
  | JNum (lit : string)            (* the literal, as written *)
  | JStr (s : string)              (* the text, escapes resolved *)
  | JArr (elems : list jvalue)
  | JObj (members : list (string * jvalue)).

Definition is_json_space (c : ascii) : bool :=
  ascii_is " " c || ascii_is TAB c || ascii_is LF c || ascii_is CR c.

Fixpoint skip_space (s : string) : string :=
  match s with
  | String c s' => if is_json_space c then skip_space s' else s
  | EmptyString => EmptyString
  end.

Definition hex_value (c : ascii) : option Z :=
  let n := Z.of_nat (nat_of_ascii c) in
  if (48 <=? n) && (n <=? 57) then Some (n - 48)
  else if (97 <=? n) && (n <=? 102) then Some (n - 87)
  else if (65 <=? n) && (n <=? 70) then Some (n - 55)
  else None.

(** The four hexadecimal digits of a [\u] escape. *)
Definition getu4 (s : string) : option (Z * string) :=
  match s with
  | String a (String b (String c (String d rest))) =>
      match hex_value a, hex_value b, hex_value c, hex_value d with
      | Some x3, Some x2, Some x1, Some x0 =>
          Some (4096 * x3 + 256 * x2 + 16 * x1 + x0, rest)
      | _, _, _, _ => None
      end
  | _ => None
  end.

Definition byte_of_Z (n : Z) : ascii := ascii_of_nat (Z.to_nat n).

(** UTF-8 encoding of a code point. *)
Definition utf8_encode (r : Z) : string :=
  if r <? 128 then String (byte_of_Z r) ""
  else if r <? 2048 then
    String (byte_of_Z (192 + r / 64)) (String (byte_of_Z (128 + r mod 64)) "")
  else if r <? 65536 then
    String (byte_of_Z (224 + r / 4096))
      (String (byte_of_Z (128 + (r / 64) mod 64))
         (String (byte_of_Z (128 + r mod 64)) ""))
  else
    String (byte_of_Z (240 + r / 262144))
      (String (byte_of_Z (128 + (r / 4096) mod 64))
         (String (byte_of_Z (128 + (r / 64) mod 64))
            (String (byte_of_Z (128 + r mod 64)) ""))).

Definition is_surrogate (r : Z) : bool := (55296 <=? r) && (r <? 57344).

(** A [\u] escape whose four digits gave [r]: a surrogate pair makes one
    code point, a lone surrogate becomes U+FFFD. *)
Definition unescape_u (r : Z) (rest : string) : string * string :=
  if is_surrogate r then
    match rest with
    | String "092" (String "u" rest') =>
        match getu4 rest' with
        | Some (r2, rest'') =>
            if (r <? 56320) && (56320 <=? r2) && (r2 <? 57344)
            then (utf8_encode (65536 + (r - 55296) * 1024 + (r2 - 56320)), rest'')
            else (utf8_encode 65533, rest)
        | None => (utf8_encode 65533, rest)
        end
    | _ => (utf8_encode 65533, rest)
    end
  else (utf8_encode r, rest).

Definition simple_escape (e : ascii) : option ascii :=
  if ascii_is QUOTE e then Some QUOTE
  else if ascii_is BACKSLASH e then Some BACKSLASH
  else if ascii_is "/" e then Some "/"%char
  else if ascii_is "b" e then Some "008"%char
  else if ascii_is "f" e then Some "012"%char
  else if ascii_is "n" e then Some LF
  else if ascii_is "r" e then Some CR
  else if ascii_is "t" e then Some TAB
  else None.

(** The rest of a string literal, after its opening quote. *)
Fixpoint scan_string (fuel : nat) (s : string) (acc : string) : option (string * string) :=
  match fuel with
  | O => None
  | S fuel' =>
      match s with
      | EmptyString => None
      | String c s' =>
          if ascii_is QUOTE c then Some (acc, s')
          else if ascii_is BACKSLASH c then
            match s' with
            | EmptyString => None
            | String e s'' =>
                match simple_escape e with
                | Some x => scan_string fuel' s'' (acc +:+ String x "")
                | None =>
                    if ascii_is "u" e then
                      match getu4 s'' with
                      | Some (r, rest) =>
                          let '(bytes, rest') := unescape_u r rest in
                          scan_string fuel' rest' (acc +:+ bytes)
                      | None => None
                      end
                    else None
                end
            end
          else if (nat_of_ascii c <? 32)%nat then None
          else scan_string fuel' s' (acc +:+ String c "")
      end
  end.

Fixpoint span_digits (s : string) : string * string :=
  match s with
  | String c s' =>
      if is_digit c then let '(ds, rest) := span_digits s' in (String c ds, rest)
      else (EmptyString, s)
  | EmptyString => (EmptyString, EmptyString)
  end.

(** A number literal: an optional minus sign; a zero, or a digit from 1 to
    9 and then any digits; optionally a point and one digit or more;
    optionally an [e] or [E], a sign or none, and one digit or more. *)
Definition scan_number (s : string) : option (string * string) :=
  let '(sign, s1) :=
    match s with String "-" t => ("-", t) | _ => ("", s) end in
  let int_part :=
    match s1 with
    | String "0" t => Some ("0", t)
    | _ => let '(ds, t) := span_digits s1 in
           match ds with EmptyString => None | _ => Some (ds, t) end
    end in
  match int_part with
  | None => None
  | Some (ip, s2) =>
      let frac_part :=
        match s2 with
        | String "." t =>
            let '(ds, t') := span_digits t in
            match ds with EmptyString => None | _ => Some ("." +:+ ds, t') end
        | _ => Some ("", s2)
        end in
      match frac_part with
      | None => None
      | Some (fp, s3) =>
          let exp_part :=
            match s3 with
            | String e t =>
                if ascii_is "e" e || ascii_is "E" e then
                  let '(sg, t1) :=
                    match t with
                    | String "+" u => ("+", u)
                    | String "-" u => ("-", u)
                    | _ => ("", t)
                    end in
                  let '(ds, t2) := span_digits t1 in
                  match ds with
                  | EmptyString => None
                  | _ => Some (String e "" +:+ sg +:+ ds, t2)
                  end
                else Some ("", s3)
            | EmptyString => Some ("", s3)
            end in
          match exp_part with
          | None => None
          | Some (ep, s4) => Some (sign +:+ ip +:+ fp +:+ ep, s4)
          end
      end
  end.

Definition drop_prefix (p s : string) : option string :=
  if String.prefix p s
  then Some (String.substring (String.length p) (String.length s - String.length p) s)
  else None.

(** A value, the elements of an array after its first, and the members of
    an object; each returns what follows in the text. *)
Fixpoint parse_value (fuel : nat) (s : string) : option (jvalue * string) :=
  match fuel with
  | O => None
  | S fuel' =>
      match skip_space s with
      | EmptyString => None
      | String c s' as s0 =>
          if ascii_is "[" c then
            match skip_space s' with
            | String "]" r => Some (JArr [], r)
            | s1 => parse_elems fuel' s1 []
            end
          else if ascii_is "{" c then
            match skip_space s' with
            | String "}" r => Some (JObj [], r)
            | s1 => parse_members fuel' s1 []
            end
          else if ascii_is QUOTE c then
            match scan_string (String.length s') s' "" with
            | Some (str, r) => Some (JStr str, r)
            | None => None
            end
          else if ascii_is "n" c then
            option_map (fun r => (JNull, r)) (drop_prefix "null" s0)
          else if ascii_is "t" c then
            option_map (fun r => (JBool true, r)) (drop_prefix "true" s0)
          else if ascii_is "f" c then
            option_map (fun r => (JBool false, r)) (drop_prefix "false" s0)
          else
            option_map (fun '(lit, r) => (JNum lit, r)) (scan_number s0)
      end
  end
with parse_elems (fuel : nat) (s : string) (acc : list jvalue) : option (jvalue * string) :=
  match fuel with
  | O => None
  | S fuel' =>
      match parse_value fuel' s with
      | None => None
      | Some (v, r) =>
          match skip_space r with
          | String "," r' => parse_elems fuel' r' (acc ++ [v])
          | String "]" r' => Some (JArr (acc ++ [v]), r')
          | _ => None
          end
      end
  end
with parse_members (fuel : nat) (s : string) (acc : list (string * jvalue)) : option (jvalue * string) :=
  match fuel with
  | O => None
  | S fuel' =>
      match skip_space s with
      | String "034" s' =>
          match scan_string (String.length s') s' "" with
          | None => None
          | Some (key, r) =>
              match skip_space r with
              | String ":" r' =>
                  match parse_value fuel' r' with
                  | None => None
                  | Some (v, r'') =>
                      match skip_space r'' with
                      | String "," r3 => parse_members fuel' r3 (acc ++ [(key, v)])
                      | String "}" r3 => Some (JObj (acc ++ [(key, v)]), r3)
                      | _ => None
                      end
                  end
              | _ => None
              end
          end
      | _ => None
      end
  end.

(** The whole text is one value between optional white space; [None] is
    the library's syntax error. *)
Definition json_parse (data : string) : option jvalue :=
  match parse_value (2 * String.length data + 2) data with
  | Some (v, r) =>
      match skip_space r with EmptyString => Some v | _ => None end
  | None => None
  end.

(** *** Decoding into [*Stacks]

    The library decodes by the type of the target: an array into a slice,
    element by element; an object into a struct, member by member, a key
    naming a field when it equals the field's name up to the case of
    letters.  [null] leaves a scalar or a struct as it is and empties a
    slice.  A value of the wrong kind is a type error: the library notes
    the first one, leaves that target as it is and goes on decoding.  The
    [bool] of each result is [true] when no type error was noted.

    The exported fields of [runtime.Frame] are [PC], [Func], [Function],
    [File], [Line] and [Entry].  Only the three of [Frame] are stored; a
    member for one of the others can still be a type error. *)
Definition ascii_lower (c : ascii) : ascii :=
  let n := nat_of_ascii c in
  if ((65 <=? n) && (n <=? 90))%nat then ascii_of_nat (n + 32) else c.

Fixpoint fold_name (s : string) : string :=
  match s with
  | EmptyString => EmptyString
  | String c s' => String (ascii_lower c) (fold_name s')
  end.

(** [strconv.ParseInt(lit, 10, 64)] and [strconv.ParseUint(lit, 10, 64)] on
    a JSON number literal; [None] when they report an error. *)
Definition parse_int64 (lit : string) : option Z :=
  let '(neg, body) :=
    match lit with String "-" t => (true, t) | _ => (false, lit) end in
  match body with
  | EmptyString => None
  | _ =>
      match digits_value 0 body with
      | None => None
      | Some un =>
          let v := if neg then - un else un in
          if (- 2 ^ 63 <=? v) && (v <=? 2 ^ 63 - 1) then Some v else None
      end
  end.

Definition parse_uint64 (lit : string) : option Z :=
  match lit with
  | EmptyString => None
  | _ =>
      match digits_value 0 lit with
      | Some v => if v <=? 2 ^ 64 - 1 then Some v else None
      | None => None
      end
  end.

Definition decode_member (st : Frame * bool) (m : string * jvalue) : Frame * bool :=
  let '(frame, ok) := st in
  let '(key, v) := m in
  let k := fold_name key in
  if String.eqb k "function" then
    match v with
    | JStr s => (mkFrame s (File frame) (Line frame), ok)
    | JNull => st
    | _ => (frame, false)
    end
  else if String.eqb k "file" then
    match v with
    | JStr s => (mkFrame (Function frame) s (Line frame), ok)
    | JNull => st
    | _ => (frame, false)
    end
  else if String.eqb k "line" then
    match v with
    | JNum lit =>
        match parse_int64 lit with
        | Some n => (mkFrame (Function frame) (File frame) n, ok)
        | None => (frame, false)
        end
    | JNull => st
    | _ => (frame, false)
    end
  else if String.eqb k "pc" || String.eqb k "entry" then
    match v with
    | JNum lit => match parse_uint64 lit with Some _ => st | None => (frame, false) end
    | JNull => st
    | _ => (frame, false)
    end
  else if String.eqb k "func" then
    match v with
    | JObj _ | JNull => st
    | _ => (frame, false)
    end
  else st.

Definition decode_Frame (v : jvalue) : Frame * bool :=
  match v with
  | JObj members => fold_left decode_member members (zeroFrame, true)
  | JNull => (zeroFrame, true)
  | _ => (zeroFrame, false)
  end.

Definition decode_Stack (v : jvalue) : Stack * bool :=
  match v with
  | JArr elems =>
      let rs := map decode_Frame elems in (map fst rs, forallb snd rs)
  | JNull => ([], true)
  | _ => ([], false)
  end.

Definition decode_Stacks (v : jvalue) : Stacks * bool :=
  match v with
  | JArr elems =>
      let rs := map decode_Stack elems in (map fst rs, forallb snd rs)
  | JNull => ([], true)
  | _ => ([], false)
  end.

(** [json.Unmarshal([]byte(data), &stacks)] for [stacks := Stacks{}]: the
    value of [stacks] after the call, and whether the error is [nil].  A
    syntax error is found before anything is stored. *)
Definition json_Unmarshal_Stacks (data : string) : Stacks * bool :=
  match json_parse data with
  | None => ([], false)
  | Some v => decode_Stacks v
  end.

(** *** Encoding: [Stack.MarshalJSON] *)

(** The local type [jsonFrame] of [Stack.MarshalJSON]. *)
Record jsonFrame : Type := mkJsonFrame {
  jFunction : string;
  jFile : string;
  jLine : Z
}.

(** The slice [jFrames] that [Stack.MarshalJSON] builds and encodes. *)
Definition jFrames (s : Stack) : list jsonFrame :=
  map (fun frame => mkJsonFrame (Function frame) (File frame) (Line frame))
      (trimStack s).

Definition hex_digit (n : nat) : ascii :=
  match String.get n "0123456789abcdef" with Some c => c | None => "0"%char end.

(** The library's string encoding, with its default escaping of [<], [>],
    [&], U+2028 and U+2029. *)
Fixpoint json_escape (s : string) : string :=
  match s with
  | EmptyString => EmptyString
  | String "226" (String "128" (String "168" rest)) => "\u2028" +:+ json_escape rest
  | String "226" (String "128" (String "169" rest)) => "\u2029" +:+ json_escape rest
  | String c rest =>
      let n := nat_of_ascii c in
      (if ascii_is QUOTE c || ascii_is BACKSLASH c then String BACKSLASH (String c "")
       else if ascii_is LF c then "\n"
       else if ascii_is CR c then "\r"
       else if ascii_is TAB c then "\t"
       else if ascii_is "008" c then "\b"
       else if ascii_is "012" c then "\f"
       else if (n <? 32)%nat || ascii_is "<" c || ascii_is ">" c || ascii_is "&" c
       then "\u00" +:+ String (hex_digit (n / 16)) (String (hex_digit (n mod 16)) "")
       else String c "")
      +:+ json_escape rest
  end.

Definition json_quote (s : string) : string :=
  String QUOTE (json_escape s) +:+ String QUOTE "".

Definition json_Marshal_jsonFrame (f : jsonFrame) : string :=
  "{" +:+ json_quote "function" +:+ ":" +:+ json_quote (jFunction f)
  +:+ "," +:+ json_quote "file" +:+ ":" +:+ json_quote (jFile f)
  +:+ "," +:+ json_quote "line" +:+ ":" +:+ fmt_d (jLine f) +:+ "}".

(** [Stack.MarshalJSON]: the bytes of [json.Marshal(jFrames)]; encoding a
    slice of strings and integers has no error. *)
Definition Stack_MarshalJSON (s : Stack) : string :=
  "[" +:+ String.concat "," (map json_Marshal_jsonFrame (jFrames s)) +:+ "]".

(** [json.Marshal] of a non-nil [Stacks]: every element is encoded by its
    own [MarshalJSON]. *)
Definition json_Marshal_Stacks (s : Stacks) : string :=
  "[" +:+ String.concat "," (map Stack_MarshalJSON s) +:+ "]".

(** [Stack.FormatJson]. *)
Definition Stack_FormatJson (s : Stack) : string := Stack_MarshalJSON s.

(** ** [ParseStacks] *)

(** [len(stacks) > 0 && len(stacks[0]) > 0 && stacks[0][0].File != ""]. *)
Definition decode_accepted (stacks : Stacks) : bool :=
  (0 <? length stacks)%nat
  && match stacks !! 0%nat with
     | Some stack0 =>
         (0 <? length stack0)%nat
         && match stack0 !! 0%nat with
            | Some frame => negb (String.eqb (File frame) "")
            | None => false
            end
     | None => false
     end.

(** The frame made of one match: [match[1]], [match[2]] and the number
    read from [match[3]]. *)
Definition frame_of_match (m : list string) : Frame :=
  mkFrame (nth 1 m "") (nth 2 m "") (strconv_ParseInt32 (nth 3 m "")).

(** The loop over the blocks, appending to [stacks]. *)
Fixpoint ParseStacks_blocks (blocks : list string) (stacks : Stacks) : Stacks :=
  match blocks with
  | [] => stacks
  | block :: blocks' =>
      match FindAllStringSubmatch consoleStackRegexp block with
      | [] => ParseStacks_blocks blocks' stacks
      | matches => ParseStacks_blocks blocks' (stacks ++ [map frame_of_match matches])
      end
  end.

(** The text that the console branch splits into blocks. *)
Definition normalize_newlines (s : string) : string :=
  strings_ReplaceAll (strings_ReplaceAll s (String CR "") "")
                     (String CR nl) nl.

Definition console_blocks (s : string) : list string :=
  strings_Split (normalize_newlines s) (nl +:+ nl).

Definition ParseStacks (s : string) : Stacks :=
  let '(stacks, ok) := json_Unmarshal_Stacks s in
  if ok && decode_accepted stacks then stacks
  else ParseStacks_blocks (console_blocks s) stacks.

(** ** Errors ([error.go]) *)

Definition uintptr : Type := Z.

(** The values of [any] kept as metadata; the package stores and copies
    them and never looks inside. *)
Inductive any : Type :=
  | AnyNil
  | AnyBool (b : bool)
  | AnyInt (n : Z)
  | AnyString (s : string).

(** A non-nil value of the interface [error].  It is a [*stackError],
    given by the state of the struct it points to, or an error of another
    type, given by what [new] can ask of it: its message, the stack of
    program counters of its [StackTrace] method when it is a [stackTracer]
    of github.com/pkg/errors, and the error that [errors.Unwrap] returns
    for it.  A nil interface value is the [None] of [option error].

    The embedding has no addresses: a [*stackError] is the struct.  An
    in-place method returns the new state of its receiver. *)
#[warnings="-register-all"]
Inductive error : Type :=
  | foreignError (msg : string) (StackTrace : option (list uintptr))
                 (Unwrap : option error)
  | stackErrorPtr (se : stackError)
with stackError : Type :=
  | mkStackError (Err : option error) (StackTraces : Stacks)
                 (MetaFields : gmap string any).

Definition Err (se : stackError) : option error :=
  let '(mkStackError e _ _) := se in e.
Definition StackTraces (se : stackError) : Stacks :=
  let '(mkStackError _ st _) := se in st.
Definition MetaFields (se : stackError) : gmap string any :=
  let '(mkStackError _ _ mf) := se in mf.

(** The interface [Error] has one implementation, [*stackError]; [None] is
    its nil value.  A value of [Error] used as an [error]: *)
Definition as_error (e : option stackError) : option error :=
  option_map stackErrorPtr e.

(** [errors.New(msg)]. *)
Definition errors_New (msg : string) : error := foreignError msg None None.

(** *** What the package asks of the Go runtime and of [fmt] *)

(** An operand of a formatting call: an error or another value. *)
Inductive operand : Type :=
  | OpError (e : error)
  | OpValue (v : any).

(** The collaborators, as they answer at one call of an entry point:
    - [Callers skip] is what [runtime.Callers(skip, buf)] would write into
      an unbounded [buf] when called from [StackTraceWithSkippedFrames];
    - [CallersFrames pcs] lists the frames that [Frames.Next] yields for
      [runtime.CallersFrames(pcs)];
    - [Sprintf format a] is the message of [fmt.Errorf(format, a...)] and
      [Wrapped format a] the error its [Unwrap() error] method returns, if
      it has that method. *)
Record runtime : Type := mkRuntime {
  Callers : Z -> list uintptr;
  CallersFrames : list uintptr -> list Frame;
  Sprintf : string -> list operand -> string;
  Wrapped : string -> list operand -> option error
}.

(** [fmt.Errorf(format, a...)]: an error of [fmt]'s own types, never nil
    and never a [*stackError]. *)
Definition fmt_Errorf (rt : runtime) (format : string) (a : list operand) : error :=
  foreignError (Sprintf rt format a) None (Wrapped rt format a).

(** [uintptrToFrames]: every frame that [Next] yields, but the zero ones
    (frames are compared on the three fields of the embedding). *)
Definition uintptrToFrames (rt : runtime) (stackPtrs : list uintptr) : Stack :=
  filter (fun frame => frame <> zeroFrame) (CallersFrames rt stackPtrs).

(** [StackTraceWithSkippedFrames]: the buffer has 1024 entries. *)
Definition StackTraceWithSkippedFrames (rt : runtime) (skippedFrames : Z) : Stack :=
  uintptrToFrames rt (take 1024 (Callers rt (2 + skippedFrames))).

Definition StackTrace (rt : runtime) : Stack := StackTraceWithSkippedFrames rt 1.

(** *** The methods of [*stackError] *)

Definition clone (se : stackError) : stackError :=
  mkStackError (Err se) (StackTraces se)
    (map_fold (fun k v m => <[k:=v]> m) ∅ (MetaFields se)).

(** [Error]: the message of the inner error; [None] is the panic of a call
    through a nil [Err]. *)
Fixpoint error_Error (e : error) : option string :=
  match e with
  | foreignError msg _ _ => Some msg
  | stackErrorPtr (mkStackError (Some e') _ _) => error_Error e'
  | stackErrorPtr (mkStackError None _ _) => None
  end.

Definition stackError_Error (se : stackError) : option string :=
  match Err se with
  | Some e => error_Error e
  | None => None
  end.

Definition stackError_Stacks (se : stackError) : Stacks := StackTraces se.
Definition stackError_Unwrap (se : stackError) : option error := Err se.
Definition FormatStacks (se : stackError) : string := Stacks_Format (StackTraces se).
Definition FormatStacksJson (se : stackError) : string :=
  json_Marshal_Stacks (StackTraces se).
Definition Fields (se : stackError) : gmap string any := MetaFields se.

Definition ErrorWithStack (se : stackError) : option string :=
  match stackError_Error se with
  | Some msg => Some (msg +:+ nl +:+ FormatStacks se)
  | None => None
  end.

Definition WithInPlace (se : stackError) (keyValuePairs : gmap string any) : stackError :=
  mkStackError (Err se) (StackTraces se)
    (map_fold (fun k v m => <[k:=v]> m) (MetaFields se) keyValuePairs).

Definition With (se : stackError) (keyValuePairs : gmap string any) : stackError :=
  WithInPlace (clone se) keyValuePairs.

Definition WithSingle (se : stackError) (key : string) (value : any) : stackError :=
  let newStackError := clone se in
  mkStackError (Err newStackError) (StackTraces newStackError)
    (<[key:=value]> (MetaFields newStackError)).

(** [SetError]: [se.Err = err]. *)
Definition SetError (se : stackError) (err : option error) : stackError :=
  mkStackError err (StackTraces se) (MetaFields se).

(** [SetStacks]: [se.StackTraces = stacks]. *)
Definition SetStacks (se : stackError) (stacks : Stacks) : stackError :=
  mkStackError (Err se) stacks (MetaFields se).

(** *** [new] *)

(** The metadata loop of [new]: a key of [serr.MetaFields] is added when
    [allFields] does not have it yet. *)
Definition absorb_fields (allFields fields : gmap string any) : gmap string any :=
  map_fold (fun k v acc =>
              match acc !! k with
              | Some _ => acc
              | None => <[k:=v]> acc
              end) allFields fields.

(** The loop [for unwrapped != nil]: it ends at the first [*stackError]
    (the [break]) or at the end of the chain. *)
Fixpoint new_walk (rt : runtime) (unwrapped : error)
    (allStacks : list Stack) (allFields : gmap string any)
    : list Stack * gmap string any :=
  match unwrapped with
  | stackErrorPtr serr =>
      (allStacks ++ StackTraces serr, absorb_fields allFields (MetaFields serr))
  | foreignError _ st next =>
      let allStacks :=
        match st with
        | Some stack => allStacks ++ [uintptrToFrames rt stack]
        | None => allStacks
        end in
      match next with
      | Some unwrapped' => new_walk rt unwrapped' allStacks allFields
      | None => (allStacks, allFields)
      end
  end.

Definition new (rt : runtime) (err : option error) (skippedFrames : Z)
    (addStackToExisting : bool) (newStacks : list Stack) : option stackError :=
  match err with
  | None => None
  | Some e =>
      let '(allStacks, allFields) := new_walk rt e [] ∅ in
      let allStacks :=
        if (0 <? length newStacks)%nat then newStacks ++ allStacks
        else if (length allStacks =? 0)%nat || addStackToExisting
        then [StackTraceWithSkippedFrames rt (1 + skippedFrames)] ++ allStacks
        else allStacks in
      let allStacks :=
        if (1 <? length allStacks)%nat
        then RemoveParents (NewStacks allStacks)
        else allStacks in
      match e with
      | stackErrorPtr serr => Some (mkStackError (Err serr) allStacks allFields)
      | _ => Some (mkStackError (Some e) allStacks allFields)
      end
  end.

(** *** The entry points *)

Definition Wrap (rt : runtime) (err : option error) : option stackError :=
  new rt err 1 true [].

Definition WrapWithFrameSkips (rt : runtime) (err : option error)
    (skippedFrames : Z) : option stackError :=
  new rt err (1 + skippedFrames) true [].

Definition WrapWithStack (rt : runtime) (err : option error) (stack : Stack)
    : option stackError :=
  new rt err 1 true [stack].

Definition WrapWithoutExtraStack (rt : runtime) (err : option error)
    : option stackError :=
  new rt err 1 false [].

Definition WrapWithFrameSkipsWithoutExtraStack (rt : runtime)
    (err : option error) (skippedFrames : Z) : option stackError :=
  new rt err (1 + skippedFrames) false [].

Definition Errorf (rt : runtime) (format : string) (a : list operand)
    : option stackError :=
  let e := fmt_Errorf rt format a in
  new rt (Some e) 1 true [].

(** [FromRecover(r any)]: [None] is a nil [r]. *)
Definition FromRecover (rt : runtime) (r : option operand) : option stackError :=
  match r with
  | None => None
  | Some (OpError e) => new rt (Some e) 3 true []
  | Some (OpValue v) => new rt (Some (fmt_Errorf rt "%v" [OpValue v])) 3 true []
  end.

(** *** [MarshalJSON] and [UnmarshalJSON] of [*stackError]

    Both methods hand their own receiver back to the library.  For a value
    whose type has the method, [json.Marshal] calls its [MarshalJSON] and
    [json.Unmarshal] its [UnmarshalJSON]; [*stackError] has both.  A call
    is given fuel, one unit for every call of a method that it makes:
    [None] is a call that has not returned when the fuel is spent.  The
    [bool] of a result tells whether the returned error is [nil]. *)
Section StackErrorJSON.

(** What the library does with the bytes a [MarshalJSON] method returned:
    it checks them and copies them in compact form. *)
Variable appendCompact : string -> option string.

(** [json.Marshal(v)] for a [v] with a [MarshalJSON] method. *)
Definition json_Marshal_Marshaler {A : Type}
    (MarshalJSON : A -> option (string * bool)) (v : A)
    : option (string * bool) :=
  match MarshalJSON v with
  | None => None
  | Some (b, true) =>
      match appendCompact b with
      | Some out => Some (out, true)
      | None => Some ("", false)
      end
  | Some (_, false) => Some ("", false)
  end.

Fixpoint stackError_MarshalJSON (fuel : nat) (se : stackError)
    : option (string * bool) :=
  match fuel with
  | O => None
  | S fuel' => json_Marshal_Marshaler (stackError_MarshalJSON fuel') se
  end.




End StackErrorJSON.

(** *** Nested calls of the entry points *)

(** A call of an entry point on an error; for [Errorf] the error is one of
    the operands, for [FromRecover] it is the recovered value. *)
Inductive entry_point : Type :=
  | ep_Wrap
  | ep_WrapWithFrameSkips (skippedFrames : Z)
  | ep_WrapWithStack (stack : Stack)
  | ep_WrapWithoutExtraStack
  | ep_WrapWithFrameSkipsWithoutExtraStack (skippedFrames : Z)
  | ep_Errorf (format : string) (before after : list operand)
  | ep_FromRecover.

Definition operand_of (err : option error) : operand :=
  match err with
  | Some e => OpError e
  | None => OpValue AnyNil
  end.

Definition call (rt : runtime) (c : entry_point) (err : option error)
    : option stackError :=
  match c with
  | ep_Wrap => Wrap rt err
  | ep_WrapWithFrameSkips n => WrapWithFrameSkips rt err n
  | ep_WrapWithStack stack => WrapWithStack rt err stack
  | ep_WrapWithoutExtraStack => WrapWithoutExtraStack rt err
  | ep_WrapWithFrameSkipsWithoutExtraStack n =>
      WrapWithFrameSkipsWithoutExtraStack rt err n
  | ep_Errorf format before after =>
      Errorf rt format (before ++ [operand_of err] ++ after)
  | ep_FromRecover => FromRecover rt (option_map OpError err)
  end.

(** The calls are made one on the result of the other, the first of the
    list first; each has the runtime's answers at its own call site. *)
Fixpoint nested_calls (calls : list (runtime * entry_point)) (err : option error)
    : option error :=
  match calls with
  | [] => err
  | (rt, c) :: calls' => nested_calls calls' (as_error (call rt c err))
  end.

(** The inner error is itself a wrapped error. *)
Definition is_wrapped (e : option error) : bool :=
  match e with
  | Some (stackErrorPtr _) => true
  | _ => false
  end.

(** The lifecycle invariant, read on an error value: when the value is a
    wrapped error, its [Err] is not one. *)
Definition flattened (e : option error) : Prop :=
  match e with
  | Some (stackErrorPtr se) => is_wrapped (Err se) = false
  | _ => True
  end.

(** What [new] has after its second step and before [RemoveParents]. *)
Definition accumulated (rt : runtime) (e : error) : list Stack :=
  fst (new_walk rt e [] ∅).

(** The fourth step of [new]. *)
Definition remove_parents_if_several (stacks : list Stack) : list Stack :=
  if (1 <? length stacks)%nat then RemoveParents stacks else stacks.

(** *** Sample values for the examples *)

(** A runtime whose stack has the frames [main.run] and [main.main], and a
    [fmt] that wraps its first error operand when the format has [%w]. *)
Definition sample_frame (pc : uintptr) : Frame :=
  if pc =? 1 then mkFrame "main.run" "main.go" 12
  else if pc =? 2 then mkFrame "main.main" "main.go" 30
  else zeroFrame.

Fixpoint first_error (a : list operand) : option error :=
  match a with
  | [] => None
  | OpError e :: _ => Some e
  | OpValue _ :: a' => first_error a'
  end.

Definition sample_runtime : runtime :=
  mkRuntime (fun _ => [1; 2]) (map sample_frame)
            (fun format _ => format)
            (fun format a => if strings_Contains format "%w" then first_error a else None).

(** A list of nested calls for the examples. *)
Definition sample_calls : list (runtime * entry_point) :=
  [(sample_runtime, ep_Wrap);
   (sample_runtime, ep_WrapWithoutExtraStack);
   (sample_runtime, ep_Errorf "context: %w" [] []);
   (sample_runtime, ep_WrapWithStack scenarioB_child);
   (sample_runtime, ep_FromRecover)].

(** Two wrapped errors, and the first after [SetError] with the second. *)
Definition boom : option stackError := Wrap sample_runtime (Some (errors_New "boom")).
Definition bang : option stackError := Wrap sample_runtime (Some (errors_New "bang")).

Definition boom_set_to_bang : option error :=
  match boom, bang with
  | Some e, Some w => Some (stackErrorPtr (SetError e (Some (stackErrorPtr w))))
  | _, _ => None
  end.

Definition two_stacks : Stacks :=
  [[mkFrame "f" "a.go" 1]; [mkFrame "g" "b.go" 2]].

(** The layout of the human-readable form in the words of the
    specification: each stack between its own pair of dividers, a blank
    line between consecutive stacks. *)
Definition layout_of_the_specification (s : Stacks) : string :=
  String.concat (nl +:+ nl)
    (map (fun stack => stackDivider +:+ nl +:+ Stack_Format stack +:+ nl +:+ stackDivider) s).

(** The lines of a text. *)
Definition lines (s : string) : list string := strings_Split s nl.

Definition count_dividers (s : string) : nat :=
  length (filter (fun l => l = stackDivider) (lines s)).

(** The triples of the structured form of a stack set. *)
Definition structured_triples (s : Stacks) : list (list jsonFrame) := map jFrames s.

Definition triples_of (s : Stacks) : list (list jsonFrame) :=
  map (map (fun frame => mkJsonFrame (Function frame) (File frame) (Line frame))) s.

(** The condition of the specification for accepting a decoded stack set:
    some stack of it has some frame with a source location. *)
Definition some_frame_has_file (stacks : Stacks) : bool :=
  existsb (existsb (fun frame => negb (String.eqb (File frame) ""))) stacks.

(** ** Further functions of [stack.go] and [error.go] *)

(** *** [Stacks.Distinct] *)

(** The loop of [Distinct]: [m] holds the formatted text of the stacks
    kept so far, [distinct] the stacks kept so far. *)
Fixpoint Distinct_loop (rest : list Stack) (m : gset string) (distinct : Stacks) : Stacks :=
  match rest with
  | [] => distinct
  | stack :: rest' =>
      let k := Stack_Format stack in
      if decide (k ∈ m) then Distinct_loop rest' m distinct
      else Distinct_loop rest' ({[k]} ∪ m) (distinct ++ [stack])
  end.

Definition Distinct (s : Stacks) : Stacks := Distinct_loop s ∅ [].

(** The invariant of a stack set: no stack is a parent of a later one. *)
Definition no_parent_of_later (s : Stacks) : Prop :=
  forall (i j : nat) (p c : Stack),
    (i < j)%nat -> s !! i = Some p -> s !! j = Some c -> IsParentOf p c = false.

(** *** What the walk of [new] meets on a chain *)

(** The first [*stackError] on the chain of an error, where the walk
    stops. *)
Fixpoint first_wrapped (e : error) : option stackError :=
  match e with
  | stackErrorPtr serr => Some serr
  | foreignError _ _ (Some e') => first_wrapped e'
  | foreignError _ _ None => None
  end.

(** The stacks of the [stackTracer]s that come before it, outermost
    first. *)
Fixpoint tracer_stacks (rt : runtime) (e : error) : list Stack :=
  match e with
  | stackErrorPtr _ => []
  | foreignError _ st next =>
      match st with
      | Some stack => [uintptrToFrames rt stack]
      | None => []
      end
      ++ match next with
         | Some e' => tracer_stacks rt e'
         | None => []
         end
  end.

(** A text without its carriage returns. *)
Fixpoint without_CR (s : string) : string :=
  match s with
  | EmptyString => EmptyString
  | String c s' =>
      if ascii_is CR c then without_CR s' else String c (without_CR s')
  end.

(** *** Stacks that the human-readable form can carry *)

(** Every byte of a text passes a test. *)
Fixpoint all_chars (P : ascii -> bool) (s : string) : bool :=
  match s with
  | EmptyString => true
  | String c s' => P c && all_chars P s'
  end.

(** A text that fills a line of the console form as it is: not empty, not
    starting with a space or a tab, and without a newline or a carriage
    return. *)
Definition plain (t : string) : bool :=
  match t with
  | EmptyString => false
  | String c _ =>
      negb (is_blank c)
      && all_chars (fun x => negb (ascii_is LF x) && negb (ascii_is CR x)) t
  end.

(** A frame with a plain function, a plain file and a line that [int32]
    holds and that is not negative. *)
Definition printable (frame : Frame) : bool :=
  plain (Function frame) && plain (File frame)
  && (0 <=? Line frame) && (Line frame <=? 2 ^ 31 - 1).

(** The value of a decimal numeral, read from the left onto [acc]. *)
Fixpoint horner (acc : Z) (d : Decimal.uint) : Z :=
  match d with
  | Decimal.Nil => acc
  | Decimal.D0 d => horner (10 * acc + 0) d
  | Decimal.D1 d => horner (10 * acc + 1) d
  | Decimal.D2 d => horner (10 * acc + 2) d
  | Decimal.D3 d => horner (10 * acc + 3) d
  | Decimal.D4 d => horner (10 * acc + 4) d
  | Decimal.D5 d => horner (10 * acc + 5) d
  | Decimal.D6 d => horner (10 * acc + 6) d
  | Decimal.D7 d => horner (10 * acc + 7) d
  | Decimal.D8 d => horner (10 * acc + 8) d
  | Decimal.D9 d => horner (10 * acc + 9) d
  end.

(** The lines of the human-readable form: a divider, or the two lines of a
    frame. *)
Inductive segment : Type :=
  | SegDivider
  | SegFrame (frame : Frame).

Definition render_segment (seg : segment) : string :=
  match seg with
  | SegDivider => stackDivider
  | SegFrame frame => Sprintf_frame frame
  end.

Definition segments_text (segs : list segment) : string :=
  String.concat nl (map render_segment segs).

Fixpoint segment_frames (segs : list segment) : list Frame :=
  match segs with
  | [] => []
  | SegDivider :: segs' => segment_frames segs'
  | SegFrame frame :: segs' => frame :: segment_frames segs'
  end.

Definition segment_ok (seg : segment) : bool :=
  match seg with
  | SegDivider => true
  | SegFrame frame => printable frame
  end.

(** The segments that [Stacks.Format] writes for a stack set. *)
Definition stack_segments (stack : Stack) : list segment :=
  map SegFrame (trimStack stack) ++ [SegDivider].

Definition stacks_segments (s : Stacks) : list segment :=
  SegDivider :: concat (map stack_segments s).

(** What [FindAllStringSubmatch] reports for the two lines of a frame. *)
Definition match_of_frame (frame : Frame) : list string :=
  [Sprintf_frame frame; Function frame; File frame; fmt_d (Line frame)].

(** The last byte read: the last byte of [a], or [prev] when [a] is empty. *)
Fixpoint last_byte (prev : option ascii) (a : string) : option ascii :=
  match a with
  | EmptyString => prev
  | String c a' => last_byte (Some c) a'
  end.

(** A repetition of [cls] cannot go into [b]. *)
Definition stops (cls : ascii -> bool) (b : string) : Prop :=
  match b with
  | EmptyString => True
  | String c _ => cls c = false
  end.

(** What follows a line: nothing, or a newline. *)
Definition line_end (rest : string) : Prop :=
  match rest with
  | EmptyString => True
  | String c _ => c = LF
  end.

(** What follows a line that starts no match: nothing, or a newline and a
    line that does not start with a space or a tab. *)
Definition next_line_plain (rest : string) : Prop :=
  match rest with
  | EmptyString => True
  | String c rest' =>
      c = LF /\ match rest' with
                | EmptyString => True
                | String c' _ => is_blank c' = false
                end
  end.

(** The position where a match may start: the start of the text or of a
    line. *)
Definition line_start (prev : option ascii) : Prop :=
  prev = None \/ prev = Some LF.

(** What follows the first segment of a text of segments. *)
Definition segments_rest (segs : list segment) : string :=
  match segs with
  | [] => ""
  | _ :: _ => nl +:+ segments_text segs
  end.

(** A text without two newlines in a row. *)
Fixpoint no_blank_line (s : string) : bool :=
  match s with
  | String a (String b _ as s') =>
      negb (ascii_is LF a && ascii_is LF b) && no_blank_line s'
  | _ => true
  end.

Definition not_CR (x : ascii) : bool := negb (ascii_is CR x).

(** *** Stacks that the structured form can carry *)

(** A byte of ASCII, and a text made of such bytes. *)
Definition ascii_byte (c : ascii) : bool := (nat_of_ascii c <? 128)%nat.

Definition ascii_text (t : string) : bool := all_chars ascii_byte t.

(** A byte that is neither a newline nor a carriage return. *)
Definition no_line_break (x : ascii) : bool :=
  negb (ascii_is LF x) && negb (ascii_is CR x).

(** A frame whose structured form is read back as it is: the function and
    the file are texts of ASCII, the line is in the range of [int]. *)
Definition encodable (frame : Frame) : bool :=
  ascii_text (Function frame) && ascii_text (File frame)
  && (- 2 ^ 63 <=? Line frame) && (Line frame <=? 2 ^ 63 - 1).

Definition jsonFrame_ok (f : jsonFrame) : Prop :=
  ascii_text (jFunction f) = true /\ ascii_text (jFile f) = true.

Definition stack_ok (stack : Stack) : Prop :=
  forallb encodable (trimStack stack) = true.

(** The JSON values that the encodings of a [jsonFrame] and of a stack
    stand for. *)
Definition frame_value (f : jsonFrame) : jvalue :=
  JObj [("function", JStr (jFunction f)); ("file", JStr (jFile f));
        ("line", JNum (fmt_d (jLine f)))].

Definition stack_value (stack : Stack) : jvalue :=
  JArr (map frame_value (jFrames stack)).

(** * Properties *)

(** ** [IsParentOf] *)

Lemma IsParentOf_indices_in_range (parent child : Stack) (d : nat) :
  (length parent <= length child)%nat ->
  (1 <= d <= length parent)%nat ->
  is_Some (parent !! (length parent - d)%nat) /\
  is_Some (child !! (length child - d)%nat).
Proof.
  intros Hlen Hd. split; apply lookup_lt_is_Some; lia.
Qed.

Lemma IsParentOf_body_None (parent child : Stack) (d : nat) :
  IsParentOf_body parent child d = None <->
  exists p c : Frame,
    frames_at parent child d p c /\
    Function p = Function c /\
    File p = File c /\
    (d <> length parent -> Line p = Line c) /\
    (d = length parent -> Line p >= Line c).
Proof.
  unfold IsParentOf_body, frames_at. split.
  - destruct (parent !! _) as [p|] eqn:Hp; [|discriminate].
    destruct (child !! _) as [c|] eqn:Hc; [|discriminate].
    destruct (String.eqb_spec (Function p) (Function c)) as [Hf|Hf];
      [|simpl; discriminate].
    destruct (String.eqb_spec (File p) (File c)) as [Hg|Hg];
      [|simpl; discriminate].
    destruct (Z.ltb_spec (Line p) (Line c)) as [Hl|Hl]; [simpl; discriminate|].
    simpl.
    destruct (Nat.eqb_spec d (length parent)) as [Hd|Hd]; simpl.
    + intros _. exists p, c. repeat split; auto; intros; lia.
    + destruct (Z.eqb_spec (Line p) (Line c)) as [He|He]; [|discriminate].
      intros _. exists p, c. repeat split; auto; intros; lia.
  - intros (p & c & [Hp Hc] & Hf & Hg & Hne & Heq).
    rewrite Hp, Hc.
    rewrite (proj2 (String.eqb_eq _ _) Hf), (proj2 (String.eqb_eq _ _) Hg).
    simpl.
    destruct (Nat.eqb_spec d (length parent)) as [Hd|Hd]; simpl.
    + specialize (Heq Hd).
      destruct (Z.ltb_spec (Line p) (Line c)); [lia|reflexivity].
    + specialize (Hne Hd). rewrite Hne, Z.ltb_irrefl, Z.eqb_refl. reflexivity.
Qed.

Lemma IsParentOf_body_Some (parent child : Stack) (d : nat) (b : bool) :
  IsParentOf_body parent child d = Some b -> b = false.
Proof.
  unfold IsParentOf_body.
  repeat (case_match; try discriminate); congruence.
Qed.

Lemma IsParentOf_loop_true (parent child : Stack) (todo offset : nat) :
  IsParentOf_loop parent child todo offset = true <->
  forall d : nat, (offset <= d < offset + todo)%nat ->
    IsParentOf_body parent child d = None.
Proof.
  revert offset. induction todo as [|todo IH]; intros offset; simpl.
  - split; [intros _ d Hd; lia | reflexivity].
  - destruct (IsParentOf_body parent child offset) as [b|] eqn:Hb.
    + apply IsParentOf_body_Some in Hb as Hfalse. subst b. split.
      * discriminate.
      * intros H. specialize (H offset ltac:(lia)). congruence.
    + rewrite IH. split.
      * intros H d Hd. destruct (Nat.eq_dec d offset) as [->|Hne]; [exact Hb|].
        apply H. lia.
      * intros H d Hd. apply H. lia.
Qed.

(** C3. [IsParentOf parent child] is true exactly when [child] has at least
    as many frames as [parent] and, at every relative position [d] counted
    from the outer end, the function and source location agree, the line
    numbers agree at every position but the innermost frame of [parent],
    and there the line of [parent] is at least the line of [child]. *)
Theorem IsParentOf_iff_contract (parent child : Stack) :
  IsParentOf parent child = true <-> parent_contract parent child.
Proof.
  unfold IsParentOf, parent_contract.
  destruct (Nat.ltb_spec (length child) (length parent)) as [Hlt|Hge].
  - split; [discriminate | intros [Hle _]; lia].
  - rewrite IsParentOf_loop_true. split.
    + intros H. split; [exact Hge|]. intros d Hd.
      apply IsParentOf_body_None. apply H. lia.
    + intros [_ H] d Hd. apply IsParentOf_body_None. apply H. lia.
Qed.

Lemma IsParentOf_true_contract (parent child : Stack) :
  IsParentOf parent child = true -> parent_contract parent child.
Proof.
  unfold IsParentOf.
  destruct (Nat.ltb_spec (length child) (length parent)) as [Hlt|Hge];
    [discriminate|].
  intros Hloop. split; [exact Hge|]. intros d Hd.
  apply IsParentOf_body_None.
  apply (proj1 (IsParentOf_loop_true parent child (length parent) 1) Hloop).
  lia.
Qed.

Lemma Frame_ext (p c : Frame) :
  Function p = Function c -> File p = File c -> Line p = Line c -> p = c.
Proof. destruct p, c; simpl; intros; subst; reflexivity. Qed.

Lemma parent_contract_antisym_lookup (A B : Stack) (i : nat) :
  parent_contract A B -> parent_contract B A -> A !! i = B !! i.
Proof.
  intros [HlenAB HAB] [HlenBA HBA].
  assert (Hlen : length A = length B) by lia.
  destruct (Nat.lt_ge_cases i (length A)) as [Hi|Hi].
  - destruct (HAB (length A - i)%nat ltac:(lia))
      as (p & c & [Hp Hc] & Hf & Hg & Hne & Heq).
    destruct (HBA (length A - i)%nat ltac:(lia))
      as (c' & p' & [Hc' Hp'] & _ & _ & _ & Heq').
    replace (length A - (length A - i))%nat with i in Hp, Hp' by lia.
    replace (length B - (length A - i))%nat with i in Hc, Hc' by lia.
    rewrite Hp, Hc. f_equal.
    rewrite Hp in Hp'. rewrite Hc in Hc'.
    injection Hp' as <-. injection Hc' as <-.
    apply Frame_ext; [assumption | assumption |].
    destruct (Nat.eq_dec (length A - i)%nat (length A)) as [Hd|Hd].
    + specialize (Heq Hd). specialize (Heq' ltac:(lia)). lia.
    + exact (Hne Hd).
  - transitivity (@None Frame); [|symmetry]; apply lookup_ge_None_2; lia.
Qed.

(** C9. Two stacks that are parents of one another are equal frame for
    frame. *)
Theorem IsParentOf_antisym (A B : Stack) :
  IsParentOf A B = true -> IsParentOf B A = true -> A = B.
Proof.
  intros HAB HBA.
  apply IsParentOf_true_contract in HAB.
  apply IsParentOf_true_contract in HBA.
  apply list_eq. intros i.
  exact (parent_contract_antisym_lookup A B i HAB HBA).
Qed.

Example scenarioB_IsParentOf :
  IsParentOf scenarioB_parent scenarioB_child = true.
Proof. reflexivity. Qed.

Example scenarioB_RemoveParents :
  RemoveParents [scenarioB_parent; scenarioB_child] = [scenarioB_child].
Proof. reflexivity. Qed.

Lemma IsParentOf_antisym_witness :
  IsParentOf scenarioB_parent scenarioB_parent = true /\
  scenarioB_parent = scenarioB_parent.
Proof.
  split; [reflexivity|].
  apply (IsParentOf_antisym scenarioB_parent scenarioB_parent); reflexivity.
Defined.

Example fmt_d_examples :
  fmt_d 0 = "0" /\ fmt_d 42 = "42" /\ fmt_d (-7) = "-7".
Proof. repeat split. Qed.

Example stackDivider_length : String.length stackDivider = 38%nat.
Proof. reflexivity. Qed.

Example trimStack_example :
  trimStack [mkFrame "main.f" "a.go" 3; mkFrame "runtime.main" "proc.go" 250;
             mkFrame "runtime.goexit" "asm.s" 1] = [mkFrame "main.f" "a.go" 3].
Proof. reflexivity. Qed.

(** ** The layout written by the two formatting loops *)

Lemma append_cons (x : ascii) (a b : string) :
  String x a +:+ b = String x (a +:+ b).
Proof. reflexivity. Qed.

Lemma append_assoc (a b c : string) : (a +:+ b) +:+ c = a +:+ (b +:+ c).
Proof.
  induction a as [|x a IH]; [reflexivity|].
  rewrite !append_cons. f_equal. exact IH.
Qed.

Lemma append_nil_r (a : string) : a +:+ "" = a.
Proof.
  induction a as [|x a IH]; [reflexivity|].
  rewrite append_cons. f_equal. exact IH.
Qed.

(** Both loops append a piece per element and a newline after every piece
    but the last; this is the step they share. *)
Ltac join_loop_step IH :=
  match goal with
  | |- context [negb (?i =? ?n - 1)] =>
      destruct (Z.eqb_spec i (n - 1)); simpl negb; cbv iota;
      rewrite IH by (simpl length in *; lia);
      rewrite ?append_assoc; try reflexivity; try (simpl length in *; lia)
  end.

Lemma Stack_Format_loop_concat (rest : list Frame) (len_ts i : Z) (res : string) :
  i + Z.of_nat (length rest) = len_ts ->
  Stack_Format_loop len_ts i rest res
  = res +:+ String.concat nl (map Sprintf_frame rest).
Proof.
  revert i res. induction rest as [|frame rest IH]; intros i res Hlen.
  - simpl. now rewrite append_nil_r.
  - destruct rest as [|frame' rest].
    + simpl in *. destruct (Z.eqb_spec i (len_ts - 1)); [reflexivity | lia].
    + change (Stack_Format_loop len_ts i (frame :: frame' :: rest) res)
        with (Stack_Format_loop len_ts (i + 1) (frame' :: rest)
                (if negb (i =? len_ts - 1)
                 then (res +:+ Sprintf_frame frame) +:+ nl
                 else res +:+ Sprintf_frame frame)).
      change (String.concat nl (map Sprintf_frame (frame :: frame' :: rest)))
        with (Sprintf_frame frame +:+ nl
              +:+ String.concat nl (map Sprintf_frame (frame' :: rest))).
      join_loop_step IH.
Qed.

Lemma Stack_Format_concat (s : Stack) :
  Stack_Format s = String.concat nl (map Sprintf_frame (trimStack s)).
Proof.
  unfold Stack_Format. rewrite Stack_Format_loop_concat by lia. reflexivity.
Qed.

Lemma Stacks_Format_loop_concat (rest : list Stack) (len_s i : Z) (ret : string) :
  i + Z.of_nat (length rest) = len_s ->
  Stacks_Format_loop len_s i rest ret
  = ret +:+ String.concat nl (map stack_piece rest).
Proof.
  revert i ret. induction rest as [|stack rest IH]; intros i ret Hlen.
  - simpl. now rewrite append_nil_r.
  - destruct rest as [|stack' rest].
    + simpl in *. destruct (Z.eqb_spec i (len_s - 1)); [reflexivity | lia].
    + change (Stacks_Format_loop len_s i (stack :: stack' :: rest) ret)
        with (Stacks_Format_loop len_s (i + 1) (stack' :: rest)
                (if negb (i =? len_s - 1)
                 then (ret +:+ stack_piece stack) +:+ nl
                 else ret +:+ stack_piece stack)).
      change (String.concat nl (map stack_piece (stack :: stack' :: rest)))
        with (stack_piece stack +:+ nl
              +:+ String.concat nl (map stack_piece (stack' :: rest))).
      join_loop_step IH.
Qed.

Example strings_Split_examples :
  strings_Split ("a" +:+ nl +:+ nl +:+ "b") (nl +:+ nl) = ["a"; "b"] /\
  strings_Split ("a" +:+ nl +:+ nl +:+ nl +:+ "b") (nl +:+ nl) = ["a"; nl +:+ "b"] /\
  strings_Split ("a" +:+ nl +:+ nl) (nl +:+ nl) = ["a"; ""] /\
  strings_Split "" (nl +:+ nl) = [""].
Proof. repeat split. Qed.

Example strconv_ParseInt32_examples :
  strconv_ParseInt32 "42" = 42 /\ strconv_ParseInt32 "007" = 7 /\
  strconv_ParseInt32 "4294967296" = 2147483647 /\ strconv_ParseInt32 "" = 0.
Proof. repeat split. Qed.

Example consoleStackRegexp_example :
  FindAllStringSubmatch consoleStackRegexp
    ("doWork" +:+ nl +:+ String TAB "/src/app.go:42" +:+ nl
     +:+ "  helper" +:+ nl +:+ "  C:/x:y.go:7 ")
  = [["doWork" +:+ nl +:+ String TAB "/src/app.go:42"; "doWork"; "/src/app.go"; "42"];
     ["  helper" +:+ nl +:+ "  C:/x:y.go:7 "; "helper"; "C:/x:y.go"; "7"]].
Proof. reflexivity. Qed.


(** C5 (as amended). [Stacks.Format] writes one divider line and then, for
    each stack in the order of the set, the frames of the stack (after the
    runtime trim; each frame as its function, a newline, a tab, its file, a
    colon and its line; a newline between frames), a newline and a divider;
    a single newline separates what it writes for one stack from what it
    writes for the next.  So [n] stacks lie between [n + 1] dividers,
    consecutive stacks share the divider between them, and the format puts
    no blank line between stacks. *)
Theorem Stacks_Format_layout (s : Stacks) :
  Stacks_Format s
  = stackDivider +:+ nl
    +:+ String.concat nl
          (map (fun stack =>
                  String.concat nl (map Sprintf_frame (trimStack stack))
                  +:+ nl +:+ stackDivider) s).
Proof.
  unfold Stacks_Format.
  rewrite Stacks_Format_loop_concat by lia.
  rewrite append_assoc. do 3 f_equal.
  apply map_ext. intros stack. unfold stack_piece.
  now rewrite Stack_Format_concat.
Qed.

(** The set of two one-frame stacks is written with three dividers and no
    blank line, which is not the layout of one pair of dividers per stack
    with a blank line in between. *)
Lemma Stacks_Format_no_blank_line :
  Stacks_Format two_stacks
  = stackDivider +:+ nl +:+ "f" +:+ nl +:+ String TAB "a.go:1" +:+ nl
    +:+ stackDivider +:+ nl +:+ "g" +:+ nl +:+ String TAB "b.go:2" +:+ nl
    +:+ stackDivider
  /\ strings_Contains (Stacks_Format two_stacks) (nl +:+ nl) = false
  /\ count_dividers (Stacks_Format two_stacks) = 3%nat
  /\ count_dividers (layout_of_the_specification two_stacks) = 4%nat
  /\ Stacks_Format two_stacks <> layout_of_the_specification two_stacks.
Proof.
  repeat split; try reflexivity. vm_compute. discriminate.
Qed.

(** ** [ParseStacks] *)

Lemma ParseStacks_blocks_app (blocks : list string) (stacks : Stacks) :
  ParseStacks_blocks blocks stacks = stacks ++ ParseStacks_blocks blocks [].
Proof.
  revert stacks. induction blocks as [|block blocks IH]; intros stacks; simpl.
  - now rewrite app_nil_r.
  - destruct (FindAllStringSubmatch consoleStackRegexp block) as [|m ms].
    + apply IH.
    + rewrite IH. rewrite (IH [_]). now rewrite app_assoc.
Qed.

(** Scenario C of the specification. *)
Example scenarioC_ParseStacks :
  ParseStacks ("doWork" +:+ nl +:+ String TAB "/src/app.go:42" +:+ nl +:+ nl
               +:+ "helper" +:+ nl +:+ String TAB "/src/util.go:7" +:+ nl)
  = [[mkFrame "doWork" "/src/app.go" 42]; [mkFrame "helper" "/src/util.go" 7]].
Proof. vm_compute. reflexivity. Qed.

(** C4 (the code at a failing input). The human-readable form of two
    stacks has no blank line between them, and [ParseStacks] cuts stacks at
    blank lines: it reads the text back as one stack of both frames, where
    the structured form of the same set has two stacks of one frame (and is
    read back as such). *)
Theorem ParseStacks_Format_merges_stacks :
  ParseStacks (Stacks_Format two_stacks)
  = [[mkFrame "f" "a.go" 1; mkFrame "g" "b.go" 2]]
  /\ structured_triples two_stacks
     = [[mkJsonFrame "f" "a.go" 1]; [mkJsonFrame "g" "b.go" 2]]
  /\ ParseStacks (json_Marshal_Stacks two_stacks) = two_stacks
  /\ triples_of (ParseStacks (Stacks_Format two_stacks))
     <> structured_triples two_stacks
  /\ length (ParseStacks (Stacks_Format two_stacks)) = 1%nat
  /\ length (structured_triples two_stacks) = 2%nat.
Proof.
  repeat split; try (vm_compute; reflexivity). vm_compute. discriminate.
Qed.

(** C6 (the code at a failing input). The text [[[]]] decodes without
    error to a set of one empty stack; the decode is not accepted and no
    block of the text matches the console pattern; yet [ParseStacks]
    returns the set that the rejected decode left behind, not an empty
    set. *)
Theorem ParseStacks_keeps_rejected_decode :
  json_Unmarshal_Stacks "[[]]" = ([[]], true)
  /\ decode_accepted [[]] = false
  /\ Forall (fun block => FindAllStringSubmatch consoleStackRegexp block = [])
            (console_blocks "[[]]")
  /\ ParseStacks "[[]]" = [[]]
  /\ ParseStacks "[[]]" <> [].
Proof.
  split; [vm_compute; reflexivity|].
  split; [reflexivity|].
  split; [vm_compute; repeat constructor|].
  split; [vm_compute; reflexivity|].
  vm_compute. discriminate.
Qed.

Lemma ParseStacks_blocks_no_match (blocks : list string) (stacks : Stacks) :
  Forall (fun block => FindAllStringSubmatch consoleStackRegexp block = []) blocks ->
  ParseStacks_blocks blocks stacks = stacks.
Proof.
  induction 1 as [|block blocks Hblock _ IH]; simpl; [reflexivity|].
  now rewrite Hblock.
Qed.

(** Where the decode leaves nothing behind, a text without a matching
    block does give the empty set. *)
Lemma ParseStacks_nothing_recognised (s : string) :
  fst (json_Unmarshal_Stacks s) = [] ->
  Forall (fun block => FindAllStringSubmatch consoleStackRegexp block = [])
         (console_blocks s) ->
  ParseStacks s = [].
Proof.
  unfold ParseStacks. destruct (json_Unmarshal_Stacks s) as [decoded ok].
  simpl. intros -> Hblocks.
  rewrite andb_false_r. now apply ParseStacks_blocks_no_match.
Qed.

Lemma decode_accepted_first_frame (stacks : Stacks) :
  decode_accepted stacks = true <->
  exists (frame : Frame) (frames : Stack) (stacks' : Stacks),
    stacks = (frame :: frames) :: stacks' /\ File frame <> "".
Proof.
  unfold decode_accepted. split.
  - destruct stacks as [|[|frame frames] stacks']; simpl; try discriminate.
    destruct (String.eqb_spec (File frame) ""); simpl; [discriminate|].
    intros _. now exists frame, frames, stacks'.
  - intros (frame & frames & stacks' & -> & Hfile). simpl.
    now destruct (String.eqb_spec (File frame) "").
Qed.

(** C8 (as amended). [ParseStacks] accepts the structured decode exactly
    when the decode has no error and its first stack has a first frame
    whose source location is not empty; when it accepts, it returns the
    decoded set as it is; when it does not, it goes on to the console
    blocks and appends the stacks it finds there. *)
Theorem ParseStacks_accepts_decode (s : string) :
  let decoded := fst (json_Unmarshal_Stacks s) in
  let ok := snd (json_Unmarshal_Stacks s) in
  (ok && decode_accepted decoded = true <->
   ok = true /\
   exists (frame : Frame) (frames : Stack) (stacks' : Stacks),
     decoded = (frame :: frames) :: stacks' /\ File frame <> "")
  /\ (ok && decode_accepted decoded = true -> ParseStacks s = decoded)
  /\ (ok && decode_accepted decoded = false ->
      exists kept : Stacks,
        ParseStacks s = kept ++ ParseStacks_blocks (console_blocks s) []).
Proof.
  unfold ParseStacks.
  destruct (json_Unmarshal_Stacks s) as [decoded ok]. simpl.
  split; [|split].
  - rewrite andb_true_iff, decode_accepted_first_frame. reflexivity.
  - intros ->. reflexivity.
  - intros ->. exists decoded. apply ParseStacks_blocks_app.
Qed.

(** A decode that has a frame with a source location, in its second stack,
    and is not accepted: the test looks at the first frame of the first
    stack only. *)
Lemma ParseStacks_rejects_later_frame :
  let text := json_Marshal_Stacks [[]; [mkFrame "f" "a.go" 1]] in
  json_Unmarshal_Stacks text = ([[]; [mkFrame "f" "a.go" 1]], true)
  /\ some_frame_has_file (fst (json_Unmarshal_Stacks text)) = true
  /\ snd (json_Unmarshal_Stacks text)
     && decode_accepted (fst (json_Unmarshal_Stacks text)) = false
  /\ ~ (snd (json_Unmarshal_Stacks text)
        && decode_accepted (fst (json_Unmarshal_Stacks text)) = true
        <-> snd (json_Unmarshal_Stacks text) = true
            /\ some_frame_has_file (fst (json_Unmarshal_Stacks text)) = true).
Proof.
  repeat split; try (vm_compute; reflexivity).
  vm_compute. intros [_ H]. specialize (H (conj eq_refl eq_refl)). discriminate.
Qed.

(** ** Wrapped errors *)

(** C1 (the code on every input). [MarshalJSON] of a wrapped error hands
    its receiver to [json.Marshal], which calls [MarshalJSON] of that
    receiver again: whatever fuel the call is given, it has not returned
    when the fuel is spent, so it produces no encoding. *)
Theorem stackError_MarshalJSON_never_returns
    (appendCompact : string -> option string) (fuel : nat) (se : stackError) :
  stackError_MarshalJSON appendCompact fuel se = None.
Proof.
  induction fuel as [|fuel IH]; simpl; [reflexivity|].
  unfold json_Marshal_Marshaler. now rewrite IH.
Qed.


Lemma new_returns (rt : runtime) (e : error) (skippedFrames : Z)
    (addStackToExisting : bool) (newStacks : list Stack) :
  exists r : stackError,
    new rt (Some e) skippedFrames addStackToExisting newStacks = Some r
    /\ Err r = match e with
               | stackErrorPtr serr => Err serr
               | foreignError _ _ _ => Some e
               end
    /\ StackTraces r
       = remove_parents_if_several
           (if (0 <? length newStacks)%nat then newStacks ++ accumulated rt e
            else if (length (accumulated rt e) =? 0)%nat || addStackToExisting
                 then StackTraceWithSkippedFrames rt (1 + skippedFrames)
                      :: accumulated rt e
                 else accumulated rt e).
Proof.
  unfold new, accumulated, remove_parents_if_several, NewStacks.
  destruct (new_walk rt e [] ∅) as [allStacks allFields]. simpl fst.
  destruct e as [msg st next|serr]; eexists; (split; [reflexivity|]);
    split; reflexivity.
Qed.

Lemma new_flattened (rt : runtime) (err : option error) (skippedFrames : Z)
    (addStackToExisting : bool) (newStacks : list Stack) :
  flattened err ->
  flattened (as_error (new rt err skippedFrames addStackToExisting newStacks)).
Proof.
  destruct err as [e|]; [|intros _; exact I].
  intros Hflat.
  destruct (new_returns rt e skippedFrames addStackToExisting newStacks)
    as (r & -> & HErr & _).
  simpl. rewrite HErr. destruct e as [msg st next|serr]; [reflexivity|].
  exact Hflat.
Qed.

Lemma call_flattened (rt : runtime) (c : entry_point) (err : option error) :
  flattened err -> flattened (as_error (call rt c err)).
Proof.
  intros Hflat.
  destruct c; cbn [call];
    unfold Wrap, WrapWithFrameSkips, WrapWithStack, WrapWithoutExtraStack,
      WrapWithFrameSkipsWithoutExtraStack;
    try (apply new_flattened; exact Hflat).
  - unfold Errorf. cbv zeta. apply new_flattened. exact I.
  - unfold FromRecover. destruct err as [e|]; cbn [option_map]; [|exact I].
    apply new_flattened. exact Hflat.
Qed.

(** [Errorf] and [FromRecover] of a value that is not an error wrap an
    error made by [fmt]: their result is flattened whatever the operands. *)
Lemma Errorf_flattened (rt : runtime) (format : string) (a : list operand) :
  flattened (as_error (Errorf rt format a)).
Proof. unfold Errorf. cbv zeta. apply new_flattened. exact I. Qed.

Lemma FromRecover_value_flattened (rt : runtime) (v : any) :
  flattened (as_error (FromRecover rt (Some (OpValue v)))).
Proof. unfold FromRecover. apply new_flattened. exact I. Qed.

(** C2 (as amended). Take an error value that is not a wrapped error with a
    wrapped error for its [Err].  Then, however many calls of the entry
    points are nested on it, the result is nil or a wrapped error whose
    [Err] is not a wrapped error.  One call of the engine on a wrapped
    error stores the inner error of that value, whatever it is (one level
    of flattening); on any other error it stores the error itself. *)
Theorem nested_calls_flattened
    (calls : list (runtime * entry_point)) (err : option error) :
  flattened err ->
  flattened (nested_calls calls err)
  /\ (forall (rt : runtime) (serr : stackError) (skippedFrames : Z)
        (addStackToExisting : bool) (newStacks : list Stack),
        option_map Err (new rt (Some (stackErrorPtr serr)) skippedFrames
                            addStackToExisting newStacks)
        = Some (Err serr))
  /\ (forall (rt : runtime) (msg : string) (st : option (list uintptr))
        (next : option error) (skippedFrames : Z)
        (addStackToExisting : bool) (newStacks : list Stack),
        option_map Err (new rt (Some (foreignError msg st next)) skippedFrames
                            addStackToExisting newStacks)
        = Some (Some (foreignError msg st next))).
Proof.
  intros Hflat. split; [|split].
  - revert err Hflat. induction calls as [|[rt c] calls IH]; intros err Hflat.
    + exact Hflat.
    + simpl. apply IH. now apply call_flattened.
  - intros.
    destruct (new_returns rt (stackErrorPtr serr) skippedFrames
                addStackToExisting newStacks) as (r & -> & HErr & _).
    simpl. now rewrite HErr.
  - intros.
    destruct (new_returns rt (foreignError msg st next) skippedFrames
                addStackToExisting newStacks) as (r & -> & HErr & _).
    simpl. now rewrite HErr.
Qed.

Lemma nested_calls_flattened_witness :
  flattened (Some (errors_New "boom"))
  /\ flattened (nested_calls sample_calls (Some (errors_New "boom"))).
Proof.
  split; [exact I|].
  exact (proj1 (nested_calls_flattened sample_calls (Some (errors_New "boom")) I)).
Defined.

(** A wrapped error whose inner error was replaced by [SetError] with
    another wrapped error, then wrapped again: the result has a wrapped
    error for its [Err], after one call and after three. *)
Lemma nested_calls_not_flattened :
  ~ flattened (nested_calls [(sample_runtime, ep_Wrap)] boom_set_to_bang)
  /\ ~ flattened (nested_calls
                    [(sample_runtime, ep_Wrap);
                     (sample_runtime, ep_WrapWithoutExtraStack);
                     (sample_runtime, ep_FromRecover)] boom_set_to_bang).
Proof.
  split; vm_compute; discriminate.
Qed.

Lemma accumulated_stackError (rt : runtime) (serr : stackError) :
  accumulated rt (stackErrorPtr serr) = StackTraces serr.
Proof. reflexivity. Qed.

Lemma length_zero_iff_nil' {A : Type} (l : list A) :
  (length l =? 0)%nat = true <-> l = [].
Proof. destruct l; simpl; split; congruence. Qed.

(** C7. Wrapping a non-nil error always returns a wrapped error, and its
    stack set is the selection below, after the removal of parents that
    [new] applies to a selection of more than one stack:
    - explicit stacks, when the caller gave any, ahead of everything the
      walk of the chain accumulated, and no fresh capture;
    - otherwise, when the walk accumulated nothing or a fresh capture is
      forced, one freshly captured stack ahead of what was accumulated;
    - otherwise what was accumulated, with nothing ahead of it, which is
      what [WrapWithoutExtraStack] does on an error that has stacks. *)
Theorem new_stack_selection (rt : runtime) (e : error) (skippedFrames : Z)
    (addStackToExisting : bool) (newStacks : list Stack) :
  exists r : stackError,
    new rt (Some e) skippedFrames addStackToExisting newStacks = Some r
    /\ (newStacks <> [] ->
        StackTraces r
        = remove_parents_if_several (newStacks ++ accumulated rt e))
    /\ (newStacks = [] ->
        accumulated rt e = [] \/ addStackToExisting = true ->
        StackTraces r
        = remove_parents_if_several
            (StackTraceWithSkippedFrames rt (1 + skippedFrames)
             :: accumulated rt e))
    /\ (newStacks = [] ->
        accumulated rt e <> [] -> addStackToExisting = false ->
        StackTraces r = remove_parents_if_several (accumulated rt e))
    /\ (accumulated rt e <> [] ->
        option_map StackTraces (WrapWithoutExtraStack rt (Some e))
        = Some (remove_parents_if_several (accumulated rt e))).
Proof.
  destruct (new_returns rt e skippedFrames addStackToExisting newStacks)
    as (r & Hnew & HErr & Hst).
  exists r. split; [exact Hnew|]. rewrite Hst. split; [|split; [|split]].
  - intros Hne. destruct newStacks; [congruence | reflexivity].
  - intros -> Hor. cbn [length Nat.ltb Nat.leb].
    destruct Hor as [Hacc | ->].
    + rewrite Hacc. reflexivity.
    + now rewrite orb_true_r.
  - intros -> Hacc ->. cbn [length Nat.ltb Nat.leb].
    rewrite orb_false_r.
    destruct (length (accumulated rt e) =? 0)%nat eqn:Hlen; [|reflexivity].
    apply length_zero_iff_nil' in Hlen. contradiction.
  - intros Hacc. unfold WrapWithoutExtraStack.
    destruct (new_returns rt e 1 false []) as (r' & -> & _ & Hst').
    cbn [length Nat.ltb Nat.leb] in Hst'. rewrite orb_false_r in Hst'.
    destruct (length (accumulated rt e) =? 0)%nat eqn:Hlen.
    + apply length_zero_iff_nil' in Hlen. contradiction.
    + simpl. now rewrite Hst'.
Qed.

(** Scenario A of the specification: a plain error, no explicit stack, no
    forced capture. *)
Example scenarioA_new :
  exists r : stackError,
    new sample_runtime (Some (errors_New "boom")) 1 false [] = Some r
    /\ stackError_Error r = Some "boom"
    /\ StackTraces r
       = [[mkFrame "main.run" "main.go" 12; mkFrame "main.main" "main.go" 30]].
Proof. eexists. repeat split. Qed.

(** C10. [SetError] stores the error it is given as it is: a wrapped error
    stays a wrapped error (no flattening) and nil stays nil (no check), the
    stacks and the metadata are untouched.  So the invariant that the
    entry points keep does not survive it: of two wrapped errors made by
    [Wrap], both with a plain inner error, the first has a wrapped error
    for its [Err] once [SetError] has been called on it with the second. *)
Theorem SetError_does_not_flatten :
  (forall (se w : stackError),
     Err (SetError se (Some (stackErrorPtr w))) = Some (stackErrorPtr w)
     /\ is_wrapped (Err (SetError se (Some (stackErrorPtr w)))) = true
     /\ ~ flattened (Some (stackErrorPtr (SetError se (Some (stackErrorPtr w))))))
  /\ (forall (se : stackError) (err : option error),
       Err (SetError se err) = err
       /\ StackTraces (SetError se err) = StackTraces se
       /\ MetaFields (SetError se err) = MetaFields se)
  /\ (exists e w : stackError,
       boom = Some e /\ bang = Some w
       /\ flattened (Some (stackErrorPtr e))
       /\ flattened (Some (stackErrorPtr w))
       /\ boom_set_to_bang
          = Some (stackErrorPtr (SetError e (Some (stackErrorPtr w))))
       /\ ~ flattened boom_set_to_bang).
Proof.
  split; [|split].
  - intros se w. repeat split. simpl. discriminate.
  - intros se err. repeat split.
  - unfold boom_set_to_bang.
    destruct boom as [e|] eqn:He; [|vm_compute in He; discriminate].
    destruct bang as [w|] eqn:Hw; [|vm_compute in Hw; discriminate].
    exists e, w. repeat split.
    + vm_compute in He. injection He as <-. reflexivity.
    + vm_compute in Hw. injection Hw as <-. reflexivity.
    + simpl. discriminate.
Qed.

(** * Further properties *)

(** ** The order [IsParentOf] *)

Lemma IsParentOf_contract_true (parent child : Stack) :
  parent_contract parent child -> IsParentOf parent child = true.
Proof.
  intros [Hlen Hpos]. unfold IsParentOf.
  destruct (Nat.ltb_spec (length child) (length parent)) as [Hlt|_]; [lia|].
  apply IsParentOf_loop_true. intros d Hd.
  apply IsParentOf_body_None. apply Hpos. lia.
Qed.

Lemma parent_contract_refl (s : Stack) : parent_contract s s.
Proof.
  split; [lia|]. intros d Hd.
  destruct (lookup_lt_is_Some_2 s (length s - d)%nat ltac:(lia)) as [f Hf].
  exists f, f. unfold frames_at. repeat split; auto; intros; lia.
Qed.

(** X1. Every stack is a parent of itself, and the empty stack is a parent
    of every stack. *)
Theorem IsParentOf_refl_nil (s : Stack) :
  IsParentOf s s = true /\ IsParentOf [] s = true.
Proof.
  split.
  - apply IsParentOf_contract_true, parent_contract_refl.
  - apply IsParentOf_contract_true. split; [simpl; lia|].
    intros d Hd. simpl in Hd. lia.
Qed.

Lemma parent_contract_trans (A B C : Stack) :
  parent_contract A B -> parent_contract B C -> parent_contract A C.
Proof.
  intros [HlenAB HAB] [HlenBC HBC]. split; [lia|].
  intros d Hd.
  destruct (HAB d Hd) as (p & c & [Hp Hc] & Hf & Hg & Hne & Heq).
  destruct (HBC d ltac:(lia)) as (c' & q & [Hc' Hq] & Hf' & Hg' & Hne' & Heq').
  rewrite Hc in Hc'. injection Hc' as <-.
  exists p, q. unfold frames_at. repeat split; auto; try congruence.
  - intros Hd'. rewrite (Hne Hd'). apply Hne'. lia.
  - intros Hd'. specialize (Heq Hd').
    destruct (Nat.eq_dec d (length B)) as [HdB|HdB].
    + specialize (Heq' HdB). lia.
    + specialize (Hne' HdB). lia.
Qed.

(** X2. [IsParentOf] is transitive: a parent of a parent of a stack is a
    parent of that stack. *)
Theorem IsParentOf_trans (A B C : Stack) :
  IsParentOf A B = true -> IsParentOf B C = true -> IsParentOf A C = true.
Proof.
  intros HAB HBC.
  apply IsParentOf_true_contract in HAB.
  apply IsParentOf_true_contract in HBC.
  apply IsParentOf_contract_true.
  exact (parent_contract_trans A B C HAB HBC).
Qed.

Lemma IsParentOf_trans_witness :
  IsParentOf [mkFrame "main" "a.go" 7] scenarioB_parent = true
  /\ IsParentOf scenarioB_parent scenarioB_child = true
  /\ IsParentOf [mkFrame "main" "a.go" 7] scenarioB_child = true.
Proof.
  split; [reflexivity|]. split; [reflexivity|].
  apply (IsParentOf_trans [mkFrame "main" "a.go" 7] scenarioB_parent
           scenarioB_child); reflexivity.
Defined.

(** X3. The frames of a parent, but for its innermost one, are the outermost
    frames of the child, equal field for field; the innermost frame of the
    parent agrees with the frame of the child at the same distance from the
    outer end on function and file, and its line is not below. *)
Theorem IsParentOf_outer_frames (parent child : Stack) :
  IsParentOf parent child = true ->
  (length parent <= length child)%nat
  /\ drop 1 parent = drop (S (length child - length parent)) child
  /\ forall pFrame : Frame, parent !! 0%nat = Some pFrame ->
       exists cFrame : Frame,
         child !! (length child - length parent)%nat = Some cFrame
         /\ Function pFrame = Function cFrame
         /\ File pFrame = File cFrame
         /\ Line cFrame <= Line pFrame.
Proof.
  intros H. apply IsParentOf_true_contract in H. destruct H as [Hlen Hpos].
  split; [exact Hlen|]. split.
  - apply list_eq. intros i. rewrite !lookup_drop.
    destruct (Nat.lt_ge_cases (1 + i) (length parent)) as [Hi|Hi].
    + destruct (Hpos (length parent - (1 + i))%nat ltac:(lia))
        as (p & c & [Hp Hc] & Hf & Hg & Hne & _).
      replace (length parent - (length parent - (1 + i)))%nat
        with (1 + i)%nat in Hp by lia.
      replace (length child - (length parent - (1 + i)))%nat
        with (S (length child - length parent) + i)%nat in Hc by lia.
      assert (Hpc : p = c) by (apply Frame_ext; auto; apply Hne; lia).
      subst c. etransitivity; [exact Hp | symmetry; exact Hc].
    + transitivity (@None Frame); [|symmetry]; apply lookup_ge_None_2; lia.
  - intros pFrame HpFrame.
    assert (Hpos' : (0 < length parent)%nat).
    { apply lookup_lt_Some in HpFrame. exact HpFrame. }
    destruct (Hpos (length parent) ltac:(lia))
      as (p & c & [Hp Hc] & Hf & Hg & _ & Heq).
    replace (length parent - length parent)%nat with 0%nat in Hp by lia.
    rewrite HpFrame in Hp. injection Hp as <-.
    exists c. repeat split; auto. specialize (Heq eq_refl). lia.
Qed.

Lemma IsParentOf_outer_frames_witness :
  IsParentOf scenarioB_parent scenarioB_child = true
  /\ drop 1 scenarioB_parent = drop 2 scenarioB_child.
Proof.
  split; [reflexivity|].
  exact (proj1 (proj2 (IsParentOf_outer_frames scenarioB_parent scenarioB_child
                         eq_refl))).
Defined.

(** ** [RemoveParents] *)

Lemma hasChild_true (stack : Stack) (later : list Stack) :
  hasChild stack later = true <->
  exists c : Stack, c ∈ later /\ IsParentOf stack c = true.
Proof.
  induction later as [|c later IH]; simpl.
  - split; [discriminate|]. intros (c & Hc & _). inversion Hc.
  - destruct (IsParentOf stack c) eqn:Hpc.
    + split; [|reflexivity]. intros _. exists c. split; [left|exact Hpc].
    + rewrite IH. split.
      * intros (c' & Hc' & Hp). exists c'. split; [now right|exact Hp].
      * intros (c' & Hc' & Hp). apply elem_of_cons in Hc' as [->|Hc'].
        -- congruence.
        -- now exists c'.
Qed.

Lemma hasChild_false (stack : Stack) (later : list Stack) :
  hasChild stack later = false <->
  forall c : Stack, c ∈ later -> IsParentOf stack c = false.
Proof.
  split.
  - intros Hno c Hc. destruct (IsParentOf stack c) eqn:Hp; [|reflexivity].
    assert (hasChild stack later = true) by (apply hasChild_true; eauto).
    congruence.
  - intros Hall. destruct (hasChild stack later) eqn:Hh; [|reflexivity].
    apply hasChild_true in Hh as (c & Hc & Hp). rewrite (Hall c Hc) in Hp.
    discriminate.
Qed.

Lemma RemoveParents_sublist_of (s : Stacks) : RemoveParents s `sublist_of` s.
Proof.
  induction s as [|stack later IH]; simpl; [constructor|].
  destruct (hasChild stack later).
  - now apply sublist_cons.
  - now apply sublist_skip.
Qed.

Lemma RemoveParents_last_kept (s : Stacks) : last (RemoveParents s) = last s.
Proof.
  induction s as [|stack later IH]; [reflexivity|].
  cbn [RemoveParents]. destruct (hasChild stack later) eqn:Hh.
  - rewrite IH, last_cons. destruct later as [|stack' later]; [discriminate|].
    destruct (last (stack' :: later)) eqn:Hlast; [reflexivity|].
    now apply last_None in Hlast.
  - now rewrite !last_cons, IH.
Qed.

Lemma no_parent_of_later_cons (stack : Stack) (later : Stacks) :
  no_parent_of_later (stack :: later) <->
  hasChild stack later = false /\ no_parent_of_later later.
Proof.
  unfold no_parent_of_later. split.
  - intros H. split.
    + apply hasChild_false. intros c Hc.
      apply list_elem_of_lookup in Hc as [j Hj].
      exact (H 0%nat (S j) stack c ltac:(lia) eq_refl Hj).
    + intros i j p c Hij Hp Hc.
      exact (H (S i) (S j) p c ltac:(lia) Hp Hc).
  - intros [Hno Hlater] i j p c Hij Hp Hc.
    destruct j as [|j]; [lia|]. destruct i as [|i].
    + simpl in Hp. injection Hp as <-.
      apply (proj1 (hasChild_false stack later) Hno).
      apply list_elem_of_lookup. now exists j.
    + exact (Hlater i j p c ltac:(lia) Hp Hc).
Qed.

Lemma RemoveParents_invariant (s : Stacks) : no_parent_of_later (RemoveParents s).
Proof.
  induction s as [|stack later IH]; simpl.
  - intros i j p c _ Hp. destruct i; discriminate.
  - destruct (hasChild stack later) eqn:Hh; [exact IH|].
    apply no_parent_of_later_cons. split; [|exact IH].
    apply hasChild_false. intros c Hc.
    apply (proj1 (hasChild_false stack later) Hh).
    exact (elem_of_sublist _ _ _ Hc (RemoveParents_sublist_of later)).
Qed.

Lemma RemoveParents_fixed (s : Stacks) :
  no_parent_of_later s -> RemoveParents s = s.
Proof.
  induction s as [|stack later IH]; [reflexivity|].
  intros H. apply no_parent_of_later_cons in H as [Hno Hlater].
  simpl. rewrite Hno. f_equal. exact (IH Hlater).
Qed.

(** X4. [RemoveParents] keeps a sublist of its input, in the same order, so
    it never adds or changes a stack and never returns more stacks than it
    was given; the last stack of the input is always kept, so a non-empty
    set never becomes empty. *)
Theorem RemoveParents_sublist (s : Stacks) :
  RemoveParents s `sublist_of` s
  /\ (length (RemoveParents s) <= length s)%nat
  /\ last (RemoveParents s) = last s
  /\ (s <> [] -> RemoveParents s <> []).
Proof.
  split; [apply RemoveParents_sublist_of|].
  split; [apply sublist_length, RemoveParents_sublist_of|].
  split; [apply RemoveParents_last_kept|].
  intros Hne Hnil.
  pose proof (RemoveParents_last_kept s) as Hlast. rewrite Hnil in Hlast.
  destruct s as [|stack later]; [congruence|].
  simpl in Hlast. destruct later; [discriminate|].
  symmetry in Hlast. now apply last_None in Hlast.
Qed.

(** X5. In the result of [RemoveParents] no stack is a parent of a later
    one; in particular the result has no stack twice. *)
Theorem RemoveParents_no_parent_left (s : Stacks) :
  no_parent_of_later (RemoveParents s) /\ NoDup (RemoveParents s).
Proof.
  split; [apply RemoveParents_invariant|].
  apply NoDup_alt. intros i j x Hi Hj.
  destruct (Nat.lt_total i j) as [Hlt|[Heq|Hgt]]; [|exact Heq|].
  - pose proof (RemoveParents_invariant s i j x x Hlt Hi Hj) as Hno.
    rewrite (IsParentOf_contract_true x x (parent_contract_refl x)) in Hno.
    discriminate.
  - pose proof (RemoveParents_invariant s j i x x Hgt Hj Hi) as Hno.
    rewrite (IsParentOf_contract_true x x (parent_contract_refl x)) in Hno.
    discriminate.
Qed.

(** X6. [RemoveParents] is idempotent, and it leaves alone every set in
    which no stack is a parent of a later one. *)
Theorem RemoveParents_idempotent (s : Stacks) :
  RemoveParents (RemoveParents s) = RemoveParents s
  /\ (no_parent_of_later s <-> RemoveParents s = s).
Proof.
  split.
  - apply RemoveParents_fixed, RemoveParents_invariant.
  - split; [apply RemoveParents_fixed|].
    intros Heq. rewrite <- Heq. apply RemoveParents_invariant.
Qed.

(** X7. Nothing is lost: every stack of the input is a parent of a stack
    that [RemoveParents] keeps (itself, when it is kept). *)
Theorem RemoveParents_covers (s : Stacks) (x : Stack) :
  x ∈ s -> exists y : Stack, y ∈ RemoveParents s /\ IsParentOf x y = true.
Proof.
  revert x. induction s as [|stack later IH]; intros x Hx; [inversion Hx|].
  simpl. destruct (hasChild stack later) eqn:Hh.
  - apply elem_of_cons in Hx as [->|Hx]; [|exact (IH x Hx)].
    apply hasChild_true in Hh as (c & Hc & Hpc).
    destruct (IH c Hc) as (y & Hy & Hcy).
    exists y. split; [exact Hy|].
    apply IsParentOf_contract_true.
    apply (parent_contract_trans stack c y); now apply IsParentOf_true_contract.
  - apply elem_of_cons in Hx as [->|Hx].
    + exists stack. split; [left|].
      apply IsParentOf_contract_true, parent_contract_refl.
    + destruct (IH x Hx) as (y & Hy & Hxy). exists y. split; [now right|exact Hxy].
Qed.

Lemma RemoveParents_covers_witness :
  scenarioB_parent ∈ [scenarioB_parent; scenarioB_child]
  /\ exists y : Stack,
       y ∈ RemoveParents [scenarioB_parent; scenarioB_child]
       /\ IsParentOf scenarioB_parent y = true.
Proof.
  split; [left|].
  apply (RemoveParents_covers [scenarioB_parent; scenarioB_child] scenarioB_parent).
  left.
Defined.

(** ** [trimStack] *)

Lemma trimStack_loop_le (s : Stack) (n : nat) : (trimStack_loop s n <= n)%nat.
Proof.
  induction n as [|n IH]; simpl; [lia|].
  destruct (s !! n) as [frame|]; [|lia].
  destruct (strings_HasPrefix (Function frame) "runtime."); lia.
Qed.

Lemma trimStack_loop_dropped (s : Stack) (n i : nat) :
  (n <= length s)%nat -> (trimStack_loop s n <= i < n)%nat ->
  exists frame : Frame,
    s !! i = Some frame /\ strings_HasPrefix (Function frame) "runtime." = true.
Proof.
  induction n as [|n IH]; simpl; intros Hn Hi; [lia|].
  destruct (s !! n) as [frame|] eqn:Hframe;
    [|apply lookup_ge_None in Hframe; lia].
  destruct (strings_HasPrefix (Function frame) "runtime.") eqn:Hpre; [|lia].
  destruct (Nat.eq_dec i n) as [->|Hne]; [now exists frame|].
  apply IH; lia.
Qed.

Lemma trimStack_loop_stop (s : Stack) (n k : nat) :
  (n <= length s)%nat -> trimStack_loop s n = S k ->
  exists frame : Frame,
    s !! k = Some frame /\ strings_HasPrefix (Function frame) "runtime." = false.
Proof.
  induction n as [|n IH]; simpl; intros Hn Hk; [discriminate|].
  destruct (s !! n) as [frame|] eqn:Hframe;
    [|apply lookup_ge_None in Hframe; lia].
  destruct (strings_HasPrefix (Function frame) "runtime.") eqn:Hpre.
  - apply IH; [lia | exact Hk].
  - injection Hk as <-. now exists frame.
Qed.

Lemma trimStack_loop_fixed (s : Stack) (k : nat) :
  (k <= length s)%nat ->
  (forall k', k = S k' ->
     exists frame : Frame,
       s !! k' = Some frame /\ strings_HasPrefix (Function frame) "runtime." = false) ->
  trimStack_loop (take k s) k = k.
Proof.
  intros Hk Hstop. destruct k as [|k']; [reflexivity|].
  destruct (Hstop k' eq_refl) as (frame & Hframe & Hpre).
  simpl. unfold Stack in *. rewrite lookup_take_lt by lia.
  now rewrite Hframe, Hpre.
Qed.

Lemma trimStack_length (s : Stack) :
  length (trimStack s) = trimStack_loop s (length s).
Proof.
  unfold trimStack. rewrite length_take.
  pose proof (trimStack_loop_le s (length s)). lia.
Qed.

Lemma trimStack_idempotent (s : Stack) : trimStack (trimStack s) = trimStack s.
Proof.
  pose proof (trimStack_loop_le s (length s)) as Hle.
  unfold trimStack at 1. rewrite trimStack_length.
  unfold trimStack.
  rewrite trimStack_loop_fixed; [now rewrite take_take, Nat.min_id | exact Hle |].
  intros k' Hk'. now apply (trimStack_loop_stop s (length s)).
Qed.

(** X8. [trimStack] returns a prefix of the stack: every frame it drops is
    a frame of the runtime (its function starts with "runtime."), the last
    frame it keeps is not, and trimming twice is trimming once. *)
Theorem trimStack_prefix (s : Stack) :
  trimStack s `prefix_of` s
  /\ Forall (fun frame => strings_HasPrefix (Function frame) "runtime." = true)
            (drop (length (trimStack s)) s)
  /\ (forall frame : Frame, last (trimStack s) = Some frame ->
        strings_HasPrefix (Function frame) "runtime." = false)
  /\ trimStack (trimStack s) = trimStack s.
Proof.
  split; [apply prefix_take|]. split; [|split].
  - apply Forall_lookup. intros i frame Hi.
    rewrite lookup_drop, trimStack_length in Hi.
    destruct (trimStack_loop_dropped s (length s)
                (trimStack_loop s (length s) + i)%nat) as (f & Hf & Hpre).
    + lia.
    + apply lookup_lt_Some in Hi. lia.
    + unfold Stack in *. rewrite Hf in Hi. now injection Hi as <-.
  - intros frame Hlast. rewrite last_lookup, trimStack_length in Hlast.
    destruct (trimStack_loop s (length s)) as [|k] eqn:Hk.
    + unfold trimStack in Hlast. rewrite Hk in Hlast. discriminate.
    + destruct (trimStack_loop_stop s (length s) k ltac:(lia) Hk)
        as (f & Hf & Hpre).
      simpl in Hlast. unfold trimStack, Stack in *.
      rewrite Hk, lookup_take_lt in Hlast by lia.
      rewrite Hf in Hlast. now injection Hlast as <-.
  - apply trimStack_idempotent.
Qed.

(** ** [Distinct] *)

Lemma Distinct_loop_app (rest : list Stack) (m : gset string) (distinct : Stacks) :
  Distinct_loop rest m distinct = distinct ++ Distinct_loop rest m [].
Proof.
  revert m distinct. induction rest as [|stack rest IH]; intros m distinct; simpl.
  - now rewrite app_nil_r.
  - destruct (decide (Stack_Format stack ∈ m)); [apply IH|].
    rewrite IH, (IH _ [stack]). now rewrite app_assoc.
Qed.

Lemma Distinct_loop_cons (stack : Stack) (rest : list Stack) (m : gset string) :
  Distinct_loop (stack :: rest) m []
  = if decide (Stack_Format stack ∈ m) then Distinct_loop rest m []
    else stack :: Distinct_loop rest ({[Stack_Format stack]} ∪ m) [].
Proof.
  simpl. destruct (decide (Stack_Format stack ∈ m)); [reflexivity|].
  now rewrite Distinct_loop_app.
Qed.







(** X10. [Distinct] compares stacks by their formatted text, which leaves
    out the trailing frames of the runtime: of two stacks that are equal
    after [trimStack], only the first is kept. *)
Theorem Distinct_up_to_trim (a b : Stack) (rest : Stacks) :
  trimStack a = trimStack b ->
  Distinct (a :: b :: rest) = Distinct (a :: rest).
Proof.
  intros Htrim.
  assert (Hfmt : Stack_Format b = Stack_Format a).
  { unfold Stack_Format. now rewrite Htrim. }
  unfold Distinct.
  rewrite (Distinct_loop_cons a (b :: rest)), (Distinct_loop_cons a rest).
  destruct (decide (Stack_Format a ∈ (∅ : gset string))) as [Hin|_]; [set_solver|].
  f_equal. rewrite (Distinct_loop_cons b rest), Hfmt.
  destruct (decide _) as [_|Hnin]; [reflexivity|]. set_solver.
Qed.

Lemma Distinct_up_to_trim_witness :
  trimStack [mkFrame "main.f" "a.go" 3; mkFrame "runtime.main" "proc.go" 250]
  = trimStack [mkFrame "main.f" "a.go" 3]
  /\ Distinct [[mkFrame "main.f" "a.go" 3; mkFrame "runtime.main" "proc.go" 250];
               [mkFrame "main.f" "a.go" 3]]
     = Distinct [[mkFrame "main.f" "a.go" 3; mkFrame "runtime.main" "proc.go" 250]].
Proof.
  split; [reflexivity|].
  apply (Distinct_up_to_trim
           [mkFrame "main.f" "a.go" 3; mkFrame "runtime.main" "proc.go" 250]
           [mkFrame "main.f" "a.go" 3] []).
  reflexivity.
Defined.

(** ** The constructors *)

Lemma NewStacksFromFrames_fold (stacks : list (list Frame)) (stks : Stacks) :
  fold_left (fun stks s => stks ++ [s]) stacks stks = stks ++ stacks.
Proof.
  revert stks. induction stacks as [|s stacks IH]; intros stks; simpl.
  - now rewrite app_nil_r.
  - rewrite IH. now rewrite <- app_assoc.
Qed.

(** X11. [NewStacksFromFrames] returns the slices it is given, as stacks, in
    the same order and number, as [NewStacks] does. *)
Theorem NewStacksFromFrames_same (stacks : list (list Frame)) :
  NewStacksFromFrames stacks = NewStacks stacks
  /\ length (NewStacksFromFrames stacks) = length stacks.
Proof.
  unfold NewStacksFromFrames, NewStacks.
  rewrite NewStacksFromFrames_fold. simpl. split; reflexivity.
Qed.

(** ** Metadata *)

Lemma absorb_fields_union (allFields fields : gmap string any) :
  absorb_fields allFields fields = allFields ∪ fields.
Proof.
  unfold absorb_fields.
  apply (map_fold_weak_ind (fun r m => r = allFields ∪ m)).
  - now rewrite (right_id_L ∅ (∪)).
  - intros k v m r Hk ->.
    destruct ((allFields ∪ m) !! k) as [w|] eqn:Hlook.
    + apply lookup_union_Some_raw in Hlook as [Hl|[_ Hl]]; [|congruence].
      apply map_eq. intros i. rewrite !lookup_union.
      destruct (decide (i = k)) as [->|Hne].
      * rewrite Hl, Hk, lookup_insert_eq. reflexivity.
      * now rewrite lookup_insert_ne.
    + apply lookup_union_None in Hlook as [Hl _].
      now rewrite insert_union_r.
Qed.

Lemma insert_all_union (acc keyValuePairs : gmap string any) :
  map_fold (fun k v m => <[k:=v]> m) acc keyValuePairs = keyValuePairs ∪ acc.
Proof.
  apply (map_fold_weak_ind (fun r m => r = m ∪ acc)).
  - now rewrite (left_id_L ∅ (∪)).
  - intros k v m r Hk ->. now rewrite insert_union_l.
Qed.

Lemma clone_same (se : stackError) : clone se = se.
Proof.
  unfold clone. rewrite insert_all_union, (right_id_L ∅ (∪)).
  now destruct se.
Qed.

(** X12. [With] returns a wrapped error with the same inner error and the
    same stacks, whose metadata are those of the receiver overwritten by
    the given pairs: a key of the pairs has the given value, any other key
    the value it had.  [WithSingle] is [With] of a single pair. *)
Theorem With_fields (se : stackError) (keyValuePairs : gmap string any) :
  Err (With se keyValuePairs) = Err se
  /\ StackTraces (With se keyValuePairs) = StackTraces se
  /\ Fields (With se keyValuePairs) = keyValuePairs ∪ Fields se
  /\ (forall k : string,
        Fields (With se keyValuePairs) !! k
        = match keyValuePairs !! k with
          | Some v => Some v
          | None => Fields se !! k
          end)
  /\ (forall (key : string) (value : any),
        WithSingle se key value = With se {[key := value]}
        /\ Fields (WithSingle se key value) !! key = Some value).
Proof.
  assert (HF : Fields (With se keyValuePairs) = keyValuePairs ∪ Fields se).
  { unfold With, WithInPlace, Fields. rewrite clone_same. simpl.
    apply insert_all_union. }
  split; [unfold With; now rewrite clone_same|].
  split; [unfold With; now rewrite clone_same|].
  split; [exact HF|]. split.
  - intros k. rewrite HF, lookup_union.
    destruct (keyValuePairs !! k), (Fields se !! k); reflexivity.
  - intros key value.
    assert (HS : WithSingle se key value = With se {[key := value]}).
    { unfold WithSingle, With, WithInPlace. rewrite clone_same. cbv zeta.
      f_equal. rewrite insert_all_union.
      now rewrite insert_union_singleton_l. }
    split; [exact HS|].
    unfold WithSingle, Fields. rewrite clone_same. simpl.
    apply lookup_insert_eq.
Qed.

(** ** The engine [new] *)

Lemma new_walk_chain (rt : runtime) (e : error) (allStacks : list Stack)
    (allFields : gmap string any) :
  new_walk rt e allStacks allFields
  = (allStacks ++ tracer_stacks rt e
       ++ from_option StackTraces [] (first_wrapped e),
     allFields ∪ from_option MetaFields ∅ (first_wrapped e)).
Proof.
  revert e allStacks allFields. fix IH 1.
  intros [msg st next|serr] allStacks allFields; simpl.
  - destruct next as [e'|].
    + rewrite (IH e'). f_equal. destruct st; simpl; now rewrite <- ?app_assoc.
    + simpl. rewrite (right_id_L ∅ (∪)).
      destruct st; simpl; now rewrite ?app_nil_r.
  - now rewrite absorb_fields_union.
Qed.

Lemma new_result (rt : runtime) (e : error) (skippedFrames : Z)
    (addStackToExisting : bool) (newStacks : list Stack) :
  new rt (Some e) skippedFrames addStackToExisting newStacks
  = Some (mkStackError
            (match e with
             | stackErrorPtr serr => Err serr
             | foreignError _ _ _ => Some e
             end)
            (remove_parents_if_several
               (if (0 <? length newStacks)%nat then newStacks ++ accumulated rt e
                else if (length (accumulated rt e) =? 0)%nat || addStackToExisting
                     then StackTraceWithSkippedFrames rt (1 + skippedFrames)
                          :: accumulated rt e
                     else accumulated rt e))
            (from_option MetaFields ∅ (first_wrapped e))).
Proof.
  unfold new, accumulated, remove_parents_if_several, NewStacks.
  rewrite new_walk_chain. simpl fst. rewrite (left_id_L ∅ (∪)).
  destruct e; reflexivity.
Qed.

Lemma remove_parents_if_several_invariant (stacks : list Stack) :
  no_parent_of_later (remove_parents_if_several stacks).
Proof.
  unfold remove_parents_if_several.
  destruct (Nat.ltb_spec 1 (length stacks)) as [Hlt|Hge].
  - apply RemoveParents_invariant.
  - intros i j p c Hij Hp Hc.
    apply lookup_lt_Some in Hc. lia.
Qed.

Lemma remove_parents_if_several_nonempty (stacks : list Stack) :
  stacks <> [] -> remove_parents_if_several stacks <> [].
Proof.
  unfold remove_parents_if_several. intros Hne.
  destruct (1 <? length stacks)%nat; [|exact Hne].
  intros Hnil. pose proof (RemoveParents_last_kept stacks) as Hlast.
  rewrite Hnil in Hlast. symmetry in Hlast. now apply last_None in Hlast.
Qed.

Lemma remove_parents_if_several_fixed (stacks : list Stack) :
  no_parent_of_later stacks -> remove_parents_if_several stacks = stacks.
Proof.
  unfold remove_parents_if_several. intros Hinv.
  destruct (1 <? length stacks)%nat; [|reflexivity].
  now apply RemoveParents_fixed.
Qed.

(** X13. The walk of [new] stops at the first wrapped error of the chain:
    it accumulates the stacks of the stack tracers that come before it, in
    the order of the chain, and then the stacks of that wrapped error; the
    metadata of the result are the metadata of that wrapped error, and are
    empty when the chain has none. *)
Theorem new_first_wrapped (rt : runtime) (e : error) (skippedFrames : Z)
    (addStackToExisting : bool) (newStacks : list Stack) :
  accumulated rt e
  = tracer_stacks rt e ++ from_option StackTraces [] (first_wrapped e)
  /\ option_map MetaFields
       (new rt (Some e) skippedFrames addStackToExisting newStacks)
     = Some (from_option MetaFields ∅ (first_wrapped e)).
Proof.
  split.
  - unfold accumulated. now rewrite new_walk_chain.
  - now rewrite new_result.
Qed.

(** X14. Every wrapped error that [new] returns has at least one stack, and
    its stack set keeps the invariant: no stack is a parent of a later
    one. *)
Theorem new_stacks_invariant (rt : runtime) (e : error) (skippedFrames : Z)
    (addStackToExisting : bool) (newStacks : list Stack) :
  exists r : stackError,
    new rt (Some e) skippedFrames addStackToExisting newStacks = Some r
    /\ StackTraces r <> []
    /\ no_parent_of_later (StackTraces r).
Proof.
  rewrite new_result. eexists. split; [reflexivity|]. simpl. split.
  - apply remove_parents_if_several_nonempty.
    destruct newStacks as [|stack newStacks]; [|discriminate].
    cbn [length Nat.ltb Nat.leb].
    destruct (accumulated rt e) as [|a acc]; [discriminate|].
    simpl. destruct addStackToExisting; discriminate.
  - apply remove_parents_if_several_invariant.
Qed.

(** X15. Wrapping keeps the message: the wrapped error that any entry point
    of the [Wrap] family returns for a non-nil error has the message of
    that error (and panics on [Error] exactly when that error does). *)
Theorem new_keeps_message (rt : runtime) (e : error) (skippedFrames : Z)
    (addStackToExisting : bool) (newStacks : list Stack) :
  exists r : stackError,
    new rt (Some e) skippedFrames addStackToExisting newStacks = Some r
    /\ stackError_Error r = error_Error e
    /\ (forall msg st next, e = foreignError msg st next ->
          stackError_Unwrap r = Some e /\ stackError_Error r = Some msg).
Proof.
  rewrite new_result. eexists. split; [reflexivity|]. split.
  - destruct e as [msg st next|[[e'|] stacks fields]]; reflexivity.
  - intros msg st next ->. split; reflexivity.
Qed.

(** X16. Wrapping again a wrapped error that has a stack and keeps the
    invariant (as every result of [new] does) leaves its inner error and
    its metadata as they are.  [WrapWithoutExtraStack] returns it
    unchanged.  [Wrap] returns it unchanged when the fresh stack is a
    parent of one of its stacks, and puts the fresh stack in front of its
    stacks otherwise. *)
Theorem rewrap_wrapped (rt : runtime) (r : stackError) :
  StackTraces r <> [] -> no_parent_of_later (StackTraces r) ->
  WrapWithoutExtraStack rt (Some (stackErrorPtr r)) = Some r
  /\ Wrap rt (Some (stackErrorPtr r))
     = Some (mkStackError (Err r)
               (if hasChild (StackTraceWithSkippedFrames rt 2) (StackTraces r)
                then StackTraces r
                else StackTraceWithSkippedFrames rt 2 :: StackTraces r)
               (MetaFields r)).
Proof.
  intros Hne Hinv. unfold WrapWithoutExtraStack, Wrap.
  rewrite !new_result. cbn [length Nat.ltb Nat.leb first_wrapped from_option].
  change (accumulated rt (stackErrorPtr r)) with (StackTraces r).
  change (1 + 1) with 2.
  rewrite orb_true_r, orb_false_r.
  destruct (length (StackTraces r) =? 0)%nat eqn:Hlen.
  { destruct (StackTraces r); [congruence | discriminate]. }
  split.
  - rewrite remove_parents_if_several_fixed by exact Hinv. now destruct r.
  - f_equal. f_equal.
    unfold remove_parents_if_several.
    destruct (StackTraces r) as [|s0 rest] eqn:Hst; [congruence|].
    cbn [length Nat.ltb Nat.leb].
    change (RemoveParents (StackTraceWithSkippedFrames rt 2 :: s0 :: rest))
      with (if hasChild (StackTraceWithSkippedFrames rt 2) (s0 :: rest)
            then RemoveParents (s0 :: rest)
            else StackTraceWithSkippedFrames rt 2 :: RemoveParents (s0 :: rest)).
    now rewrite (RemoveParents_fixed (s0 :: rest) Hinv).
Qed.

Lemma rewrap_wrapped_witness :
  WrapWithoutExtraStack sample_runtime
    (Some (stackErrorPtr
             (mkStackError (Some (errors_New "boom")) [scenarioB_child] ∅)))
  = Some (mkStackError (Some (errors_New "boom")) [scenarioB_child] ∅).
Proof.
  refine (proj1 (rewrap_wrapped sample_runtime
            (mkStackError (Some (errors_New "boom")) [scenarioB_child] ∅) _ _)).
  - discriminate.
  - intros i j p c Hij Hp Hc. apply lookup_lt_Some in Hc. simpl in Hc. lia.
Defined.


(** ** The console branch of [ParseStacks] *)

Lemma prefix_nil (s : string) : String.prefix "" s = true.
Proof. destruct s; reflexivity. Qed.

Lemma ReplaceAll_CR (s : string) :
  ReplaceAll_loop (String CR "") "" O s = without_CR s.
Proof.
  induction s as [|c s IH]; [reflexivity|].
  cbn [ReplaceAll_loop without_CR String.prefix String.length Nat.sub].
  unfold ascii_is. rewrite prefix_nil.
  destruct (ascii_dec CR c) as [<-|Hne].
  - rewrite Ascii.eqb_refl. exact IH.
  - destruct (Ascii.eqb_spec c CR) as [->|_]; [congruence|]. now rewrite IH.
Qed.

Lemma ReplaceAll_CRLF_without_CR (s : string) :
  ReplaceAll_loop (String CR nl) nl O (without_CR s) = without_CR s.
Proof.
  induction s as [|c s IH]; [reflexivity|].
  cbn [without_CR]. unfold ascii_is.
  destruct (Ascii.eqb_spec c CR) as [->|Hne]; [exact IH|].
  cbn [ReplaceAll_loop String.prefix].
  destruct (ascii_dec CR c) as [<-|_]; [congruence|]. now rewrite IH.
Qed.

Lemma without_CR_no_CR (s : string) :
  ~ In CR (list_ascii_of_string (without_CR s)).
Proof.
  induction s as [|c s IH]; [intros []|].
  cbn [without_CR]. unfold ascii_is.
  destruct (Ascii.eqb_spec c CR) as [->|Hne]; [exact IH|].
  intros [Heq|Hin]; [congruence | exact (IH Hin)].
Qed.

(** X18. Before it splits the text into blocks, [ParseStacks] deletes every
    carriage return and nothing else: the second replacement, of a
    carriage return and a newline by a newline, never finds anything to
    replace. *)
Theorem normalize_newlines_removes_CR (s : string) :
  normalize_newlines s = without_CR s
  /\ strings_ReplaceAll (strings_ReplaceAll s (String CR "") "") (String CR nl) nl
     = strings_ReplaceAll s (String CR "") ""
  /\ ~ In CR (list_ascii_of_string (normalize_newlines s)).
Proof.
  assert (H : normalize_newlines s = without_CR s).
  { unfold normalize_newlines, strings_ReplaceAll.
    now rewrite ReplaceAll_CR, ReplaceAll_CRLF_without_CR. }
  split; [exact H|]. split.
  - unfold strings_ReplaceAll.
    now rewrite ReplaceAll_CR, ReplaceAll_CRLF_without_CR.
  - rewrite H. apply without_CR_no_CR.
Qed.


(** X20. On a text that is not JSON, [ParseStacks] returns the stacks of the
    console blocks and nothing else; when no block of such a text matches
    the console pattern, it returns the empty set. *)
Theorem ParseStacks_not_json (s : string) :
  json_parse s = None ->
  ParseStacks s = ParseStacks_blocks (console_blocks s) []
  /\ (Forall (fun block => FindAllStringSubmatch consoleStackRegexp block = [])
             (console_blocks s) ->
      ParseStacks s = []).
Proof.
  intros Hjson. unfold ParseStacks, json_Unmarshal_Stacks. rewrite Hjson.
  cbn [andb]. split; [reflexivity|].
  apply ParseStacks_blocks_no_match.
Qed.

Lemma ParseStacks_not_json_witness :
  ParseStacks "panic: something went wrong" = [].
Proof.
  refine (proj2 (ParseStacks_not_json "panic: something went wrong" _) _).
  - vm_compute. reflexivity.
  - vm_compute. repeat constructor.
Defined.

(** ** Decimal numerals *)

Lemma horner_of_uint_acc (d : Decimal.uint) (acc : positive) :
  horner (Zpos acc) d = Zpos (Pos.of_uint_acc d acc).
Proof.
  revert acc. induction d; intros acc; simpl; try reflexivity;
    rewrite <- IHd; f_equal; lia.
Qed.

Lemma horner_of_uint (d : Decimal.uint) : horner 0 d = Z.of_uint d.
Proof.
  unfold Z.of_uint.
  induction d; simpl; try reflexivity; try exact IHd;
    change (10 * 0 + _) with (Zpos 1) || idtac;
    first [ exact (horner_of_uint_acc d 1)
          | match goal with
            | |- horner ?k d = _ =>
                change k with (Zpos (Z.to_pos k)); apply horner_of_uint_acc
            end ].
Qed.

Lemma digits_value_uint (d : Decimal.uint) (acc : Z) :
  digits_value acc (NilEmpty.string_of_uint d) = Some (horner acc d).
Proof.
  revert acc. induction d; intros acc; simpl; try reflexivity;
    unfold digit_value; simpl; rewrite IHd; do 2 f_equal; lia.
Qed.

Lemma all_digits_uint (d : Decimal.uint) :
  all_chars is_digit (NilEmpty.string_of_uint d) = true.
Proof. induction d; simpl; try reflexivity; exact IHd. Qed.

(** The numeral that [%d] prints for a number that is not negative: its
    digits, at least one, and their value. *)
Lemma fmt_d_digits (n : Z) :
  0 <= n ->
  exists (c : ascii) (ds : string),
    fmt_d n = String c ds
    /\ all_chars is_digit (String c ds) = true
    /\ digits_value 0 (String c ds) = Some n.
Proof.
  intros Hn. unfold fmt_d.
  pose proof (DecimalZ.of_to n) as Hof.
  destruct n as [|p|p]; [| |lia].
  - exists "0"%char, "". repeat split.
  - simpl in *. unfold NilZero.string_of_uint.
    pose proof (DecimalPos.Unsigned.to_uint_nonnil p) as Hnil.
    pose proof (all_digits_uint (Pos.to_uint p)) as Hall.
    pose proof (digits_value_uint (Pos.to_uint p) 0) as Hval.
    rewrite horner_of_uint in Hval. unfold Z.of_int in Hof. rewrite Hof in Hval.
    destruct (Pos.to_uint p) eqn:Hd; [congruence| ..];
      simpl NilEmpty.string_of_uint in *; eexists _, _; (split; [reflexivity|]);
      split; assumption.
Qed.

(** ** Texts *)

Lemma length_append (a b : string) :
  String.length (a +:+ b) = (String.length a + String.length b)%nat.
Proof.
  induction a as [|x a IH]; [reflexivity|].
  rewrite append_cons. simpl. now rewrite IH.
Qed.

Lemma all_chars_app (P : ascii -> bool) (a b : string) :
  all_chars P (a +:+ b) = all_chars P a && all_chars P b.
Proof.
  induction a as [|x a IH]; [reflexivity|].
  rewrite append_cons. simpl. rewrite IH. now rewrite andb_assoc.
Qed.

Lemma all_chars_impl (P Q : ascii -> bool) (a : string) :
  (forall c, P c = true -> Q c = true) ->
  all_chars P a = true -> all_chars Q a = true.
Proof.
  intros HPQ. induction a as [|x a IH]; [reflexivity|]. simpl.
  intros [Hx Ha]%andb_true_iff. now rewrite (HPQ x Hx), IH.
Qed.

Lemma substring_skip (pre s : string) (m : nat) :
  String.substring (String.length pre) m (pre +:+ s) = String.substring 0 m s.
Proof.
  induction pre as [|x pre IH]; [reflexivity|].
  rewrite append_cons. simpl. exact IH.
Qed.

Lemma substring_take (x post : string) :
  String.substring 0 (String.length x) (x +:+ post) = x.
Proof.
  induction x as [|c x IH].
  - simpl. now destruct post.
  - rewrite append_cons. simpl. now rewrite IH.
Qed.

Lemma substring_middle (pre x post : string) :
  String.substring (String.length pre) (String.length x) (pre +:+ x +:+ post) = x.
Proof. now rewrite substring_skip, substring_take. Qed.

(** ** The search of the console pattern *)

Lemma re_star_greedy {R : Type} (cls : ascii -> bool)
    (k : option ascii -> string -> nat -> option R)
    (prev : option ascii) (a b : string) (pos : nat) (r : R) :
  all_chars cls a = true -> stops cls b ->
  (forall prev', k prev' b (pos + String.length a)%nat = Some r) ->
  re_star cls k prev (a +:+ b) pos = Some r.
Proof.
  revert prev pos. induction a as [|x a IH]; intros prev pos Hall Hstop Hk.
  - change ("" +:+ b) with b. specialize (Hk prev).
    rewrite Nat.add_0_r in Hk.
    destruct b as [|c b]; simpl; [exact Hk|].
    simpl in Hstop. now rewrite Hstop.
  - rewrite append_cons. simpl in Hall.
    apply andb_true_iff in Hall as [Hx Ha]. simpl. rewrite Hx.
    rewrite (IH (Some x) (S pos) Ha Hstop); [reflexivity|].
    intros prev'. rewrite <- (Hk prev'). f_equal. simpl. lia.
Qed.

Lemma re_star_none {R : Type} (cls : ascii -> bool)
    (k : option ascii -> string -> nat -> option R)
    (prev : option ascii) (a b : string) (pos : nat) :
  all_chars cls a = true -> stops cls b ->
  (forall prev' a1 a2, a = a1 +:+ a2 ->
     k prev' (a2 +:+ b) (pos + String.length a1)%nat = None) ->
  re_star cls k prev (a +:+ b) pos = None.
Proof.
  revert prev pos. induction a as [|x a IH]; intros prev pos Hall Hstop Hk.
  - change ("" +:+ b) with b. specialize (Hk prev "" "" eq_refl).
    change ("" +:+ b) with b in Hk. simpl in Hk. rewrite Nat.add_0_r in Hk.
    destruct b as [|c b]; simpl; [exact Hk|].
    simpl in Hstop. now rewrite Hstop.
  - rewrite append_cons. simpl in Hall.
    apply andb_true_iff in Hall as [Hx Ha]. simpl. rewrite Hx.
    rewrite (IH (Some x) (S pos) Ha Hstop).
    + specialize (Hk prev "" (String x a) eq_refl).
      simpl in Hk. rewrite Nat.add_0_r in Hk. rewrite <- append_cons. exact Hk.
    + intros prev' a1 a2 ->.
      specialize (Hk prev' (String x a1) a2 eq_refl).
      rewrite <- Hk. f_equal. simpl. lia.
Qed.

Lemma re_star_backtrack {R : Type} (cls : ascii -> bool)
    (k : option ascii -> string -> nat -> option R)
    (prev : option ascii) (a1 a2 b : string) (pos : nat) (r : R) :
  all_chars cls (a1 +:+ a2) = true -> stops cls b ->
  (forall prev', k prev' (a2 +:+ b) (pos + String.length a1)%nat = Some r) ->
  (forall prev' x y, a2 = x +:+ y -> x <> "" ->
     k prev' (y +:+ b) (pos + String.length a1 + String.length x)%nat = None) ->
  re_star cls k prev (a1 +:+ a2 +:+ b) pos = Some r.
Proof.
  revert prev pos. induction a1 as [|c a1 IH]; intros prev pos Hall Hstop Hok Hno.
  - change ("" +:+ a2 +:+ b) with (a2 +:+ b).
    change ("" +:+ a2) with a2 in Hall.
    specialize (Hok prev). simpl in Hok. rewrite Nat.add_0_r in Hok.
    destruct a2 as [|x a2].
    + change ("" +:+ b) with b in *.
      destruct b as [|c b]; simpl; [exact Hok|].
      simpl in Hstop. now rewrite Hstop.
    + rewrite append_cons in *. simpl in Hall.
      apply andb_true_iff in Hall as [Hx Ha]. simpl. rewrite Hx.
      rewrite (re_star_none cls k (Some x) a2 b (S pos) Ha Hstop); [exact Hok|].
      intros prev' u v ->.
      specialize (Hno prev' (String x u) v eq_refl ltac:(discriminate)).
      rewrite <- Hno. f_equal. simpl. lia.
  - rewrite !append_cons in *. simpl in Hall.
    apply andb_true_iff in Hall as [Hc Ha]. simpl. rewrite Hc.
    rewrite (IH (Some c) (S pos) Ha Hstop); [reflexivity| |].
    + intros prev'. rewrite <- (Hok prev'). f_equal. simpl. lia.
    + intros prev' x y Hxy Hx. rewrite <- (Hno prev' x y Hxy Hx).
      f_equal. simpl. lia.
Qed.

Lemma digit_not_colon (c : ascii) : is_digit c = true -> ascii_is ":" c = false.
Proof.
  intros Hd. unfold ascii_is. destruct (Ascii.eqb_spec c ":") as [->|_];
    [discriminate | reflexivity].
Qed.

Lemma digit_not_LF (c : ascii) : is_digit c = true -> not_LF c = true.
Proof.
  intros Hd. unfold not_LF, ascii_is. destruct (Ascii.eqb_spec c LF) as [->|_];
    [discriminate | reflexivity].
Qed.

Lemma line_end_stops_digit (rest : string) : line_end rest -> stops is_digit rest.
Proof. destruct rest as [|c rest]; [easy|]. simpl. now intros ->. Qed.

Lemma line_end_stops_not_LF (rest : string) : line_end rest -> stops not_LF rest.
Proof. destruct rest as [|c rest]; [easy|]. simpl. now intros ->. Qed.

Lemma re_match_Open (g : nat) (items : list re_item) (caps : captures)
    (prev : option ascii) (s : string) (pos : nat) :
  re_match (Open g :: items) caps prev s pos
  = re_match items (mkCaptures (set_group g pos (opened caps)) (closed caps))
             prev s pos.
Proof. reflexivity. Qed.

Lemma re_match_Close (g : nat) (items : list re_item) (caps : captures)
    (prev : option ascii) (s : string) (pos : nat) :
  re_match (Close g :: items) caps prev s pos
  = re_match items (mkCaptures (opened caps) (set_group g pos (closed caps)))
             prev s pos.
Proof. reflexivity. Qed.

Lemma re_match_Lit (c : ascii) (items : list re_item) (caps : captures)
    (prev : option ascii) (x : ascii) (s : string) (pos : nat) :
  re_match (Lit c :: items) caps prev (String x s) pos
  = if ascii_is c x then re_match items caps (Some x) s (S pos) else None.
Proof. reflexivity. Qed.

Lemma re_match_Plus (cls : ascii -> bool) (items : list re_item)
    (caps : captures) (prev : option ascii) (x : ascii) (s : string) (pos : nat) :
  re_match (Plus cls :: items) caps prev (String x s) pos
  = if cls x then re_star cls (re_match items caps) (Some x) s (S pos) else None.
Proof. reflexivity. Qed.

Lemma re_match_Star (cls : ascii -> bool) (items : list re_item)
    (caps : captures) (prev : option ascii) (s : string) (pos : nat) :
  re_match (Star cls :: items) caps prev s pos
  = re_star cls (re_match items caps) prev s pos.
Proof. reflexivity. Qed.

Lemma re_star_stop {R : Type} (cls : ascii -> bool)
    (k : option ascii -> string -> nat -> option R)
    (prev : option ascii) (s : string) (pos : nat) :
  stops cls s -> re_star cls k prev s pos = k prev s pos.
Proof. destruct s as [|c s]; simpl; [reflexivity|]. now intros ->. Qed.

Lemma match_line_end (caps : captures) (prev : option ascii) (rest : string)
    (pos : nat) :
  line_end rest ->
  re_match [Close 3; Star is_blank; EndLine] caps prev rest pos
  = Some (pos, mkCaptures (opened caps) (set_group 3 pos (closed caps))).
Proof.
  destruct rest as [|c rest]; simpl; [reflexivity|]. intros ->. reflexivity.
Qed.

Lemma match_digits (caps : captures) (prev : option ascii) (d0 : ascii)
    (ds rest : string) (pos : nat) :
  all_chars is_digit (String d0 ds) = true -> line_end rest ->
  re_match [Open 3; Plus is_digit; Close 3; Star is_blank; EndLine] caps prev
           (String d0 ds +:+ rest) pos
  = Some (pos + String.length (String d0 ds),
          mkCaptures (set_group 3 pos (opened caps))
                     (set_group 3 (pos + String.length (String d0 ds))
                                (closed caps)))%nat.
Proof.
  intros Hall Hend. simpl in Hall. apply andb_true_iff in Hall as [Hd0 Hds].
  rewrite append_cons, re_match_Open, re_match_Plus, Hd0.
  apply re_star_greedy; [exact Hds | now apply line_end_stops_digit |].
  intros prev'. rewrite match_line_end by exact Hend.
  cbn [opened closed String.length].
  now replace (S pos + String.length ds)%nat
    with (pos + S (String.length ds))%nat by lia.
Qed.

Lemma match_colon (caps : captures) (prev : option ascii) (d0 : ascii)
    (ds rest : string) (pos : nat) :
  all_chars is_digit (String d0 ds) = true -> line_end rest ->
  re_match [Close 2; Lit ":"; Open 3; Plus is_digit; Close 3; Star is_blank;
            EndLine] caps prev (String ":" (String d0 ds +:+ rest)) pos
  = Some (S pos + String.length (String d0 ds),
          mkCaptures (set_group 3 (S pos) (opened caps))
                     (set_group 3 (S pos + String.length (String d0 ds))
                                (set_group 2 pos (closed caps))))%nat.
Proof.
  intros Hall Hend. rewrite re_match_Close, re_match_Lit.
  change (ascii_is ":" ":") with true. cbv iota.
  now rewrite match_digits.
Qed.

Lemma match_colon_fail (caps : captures) (prev : option ascii) (y rest : string)
    (pos : nat) :
  all_chars is_digit y = true -> line_end rest ->
  re_match [Close 2; Lit ":"; Open 3; Plus is_digit; Close 3; Star is_blank;
            EndLine] caps prev (y +:+ rest) pos = None.
Proof.
  intros Hall Hend. rewrite re_match_Close. destruct y as [|c y].
  - change ("" +:+ rest) with rest.
    destruct rest as [|c rest]; [reflexivity|]. simpl in Hend. subst c.
    reflexivity.
  - rewrite append_cons, re_match_Lit. simpl in Hall.
    apply andb_true_iff in Hall as [Hc _]. now rewrite (digit_not_colon c Hc).
Qed.

Lemma plain_inv (t : string) :
  plain t = true ->
  exists (c : ascii) (t' : string),
    t = String c t' /\ is_blank c = false
    /\ all_chars not_LF t = true
    /\ all_chars (fun x => negb (ascii_is CR x)) t = true.
Proof.
  destruct t as [|c t']; [discriminate|]. unfold plain.
  intros [Hb Hall]%andb_true_iff. exists c, t'.
  split; [reflexivity|]. split; [now apply negb_true_iff|]. split.
  - revert Hall. apply all_chars_impl. intros x [H _]%andb_true_iff. exact H.
  - revert Hall. apply all_chars_impl. intros x [_ H]%andb_true_iff. exact H.
Qed.

Lemma match_file (caps : captures) (prev : option ascii) (f0 d0 : ascii)
    (fs ds rest : string) (pos : nat) :
  all_chars not_LF (String f0 fs) = true ->
  all_chars is_digit (String d0 ds) = true -> line_end rest ->
  re_match [Open 2; Plus not_LF; Close 2; Lit ":"; Open 3; Plus is_digit;
            Close 3; Star is_blank; EndLine] caps prev
           (String f0 (fs +:+ String ":" (String d0 ds +:+ rest))) pos
  = Some (S (S pos + String.length fs) + String.length (String d0 ds),
          mkCaptures
            (set_group 3 (S (S pos + String.length fs))
               (set_group 2 pos (opened caps)))
            (set_group 3 (S (S pos + String.length fs)
                          + String.length (String d0 ds))
               (set_group 2 (S pos + String.length fs) (closed caps))))%nat.
Proof.
  intros Hfile Hdig Hend. simpl in Hfile.
  apply andb_true_iff in Hfile as [Hf0 Hfs].
  rewrite re_match_Open, re_match_Plus, Hf0.
  change (fs +:+ String ":" (String d0 ds +:+ rest))
    with (fs +:+ String ":" (String d0 ds) +:+ rest).
  apply re_star_backtrack.
  - rewrite all_chars_app, Hfs.
    change (all_chars not_LF (String ":" (String d0 ds)))
      with (not_LF ":" && all_chars not_LF (String d0 ds)).
    change (not_LF ":") with true. cbn [andb].
    revert Hdig. apply all_chars_impl, digit_not_LF.
  - now apply line_end_stops_not_LF.
  - intros prev'.
    change (String ":" (String d0 ds) +:+ rest)
      with (String ":" (String d0 ds +:+ rest)).
    now rewrite match_colon.
  - intros prev' x y Hxy Hx. destruct x as [|c x]; [congruence|].
    rewrite append_cons in Hxy. injection Hxy as <- Hds.
    apply match_colon_fail; [|exact Hend].
    rewrite Hds, all_chars_app in Hdig.
    now apply andb_true_iff in Hdig as [_ Hy].
Qed.

(** The two lines of a frame, at the start of a line, are a match. *)
Lemma match_frame (prev : option ascii) (c0 f0 d0 : ascii)
    (cs fs ds rest : string) (pos : nat) :
  line_start prev ->
  is_blank c0 = false -> all_chars not_LF (String c0 cs) = true ->
  is_blank f0 = false -> all_chars not_LF (String f0 fs) = true ->
  all_chars is_digit (String d0 ds) = true -> line_end rest ->
  re_match consoleStackRegexp no_captures prev
    (String c0 (cs +:+ String LF (String TAB
       (String f0 (fs +:+ String ":" (String d0 ds +:+ rest)))))) pos
  = Some (S (S (S (S (S pos + String.length cs))) + String.length fs)
          + String.length (String d0 ds),
          mkCaptures
            [(3, S (S (S (S (S pos + String.length cs))) + String.length fs));
             (2, S (S (S pos + String.length cs)));
             (1, pos)]
            [(3, S (S (S (S (S pos + String.length cs))) + String.length fs)
                 + String.length (String d0 ds));
             (2, S (S (S (S pos + String.length cs))) + String.length fs);
             (1, S pos + String.length cs)])%nat.
Proof.
  intros Hstart Hc0 Hfn Hf0 Hfile Hdig Hend.
  simpl in Hfn. apply andb_true_iff in Hfn as [Hn0 Hcs].
  unfold consoleStackRegexp.
  assert (Hbegin : forall items caps s,
            re_match (BeginLine :: items) caps prev s pos
            = re_match items caps prev s pos).
  { intros. destruct Hstart as [->| ->]; reflexivity. }
  rewrite Hbegin, re_match_Star, re_star_stop by exact Hc0.
  rewrite re_match_Open, re_match_Plus, Hn0.
  apply re_star_greedy; [exact Hcs | reflexivity |].
  intros prev'. rewrite re_match_Close, re_match_Lit.
  change (ascii_is LF LF) with true. cbv iota.
  rewrite re_match_Plus. change (is_blank TAB) with true. cbv iota.
  rewrite re_star_stop by exact Hf0.
  rewrite match_file by first [exact Hfile | exact Hdig | exact Hend].
  reflexivity.
Qed.

(** A plain line that is followed by nothing, or by a line that does not
    start with a space or a tab, starts no match. *)
Lemma no_match_at_line (caps : captures) (prev : option ascii) (c0 : ascii)
    (cs rest : string) (pos : nat) :
  is_blank c0 = false -> all_chars not_LF (String c0 cs) = true ->
  next_line_plain rest ->
  re_match consoleStackRegexp caps prev (String c0 (cs +:+ rest)) pos = None.
Proof.
  intros Hc0 Hline Hnext. simpl in Hline.
  apply andb_true_iff in Hline as [Hn0 Hcs].
  unfold consoleStackRegexp.
  assert (Hgo : re_match [Star is_blank; Open 1; Plus not_LF; Close 1; Lit LF;
                          Plus is_blank; Open 2; Plus not_LF; Close 2; Lit ":";
                          Open 3; Plus is_digit; Close 3; Star is_blank; EndLine]
                  caps prev (String c0 (cs +:+ rest)) pos = None).
  { rewrite re_match_Star, re_star_stop by exact Hc0.
    rewrite re_match_Open, re_match_Plus, Hn0.
    apply re_star_none; [exact Hcs | |].
    - destruct rest as [|c rest]; [exact I|]. destruct Hnext as [-> _].
      reflexivity.
    - intros prev' a1 a2 Hsplit. rewrite re_match_Close.
      destruct a2 as [|x a2].
      + change ("" +:+ rest) with rest.
        destruct rest as [|c rest]; [reflexivity|].
        destruct Hnext as [-> Hnext]. rewrite re_match_Lit.
        change (ascii_is LF LF) with true. cbv iota.
        destruct rest as [|c' rest]; [reflexivity|].
        now rewrite re_match_Plus, Hnext.
      + rewrite append_cons, re_match_Lit.
        rewrite Hsplit, all_chars_app in Hcs.
        apply andb_true_iff in Hcs as [_ Ha2]. simpl in Ha2.
        apply andb_true_iff in Ha2 as [Hx _].
        unfold not_LF in Hx. apply negb_true_iff in Hx. now rewrite Hx. }
  destruct prev as [p|]; cbn [re_match]; [|exact Hgo].
  destruct (ascii_is LF p); [exact Hgo | reflexivity].
Qed.

(** Inside a line nothing starts: the pattern begins at the start of a
    line. *)
Lemma no_match_inside (caps : captures) (p : ascii) (s : string) (pos : nat) :
  ascii_is LF p = false ->
  re_match consoleStackRegexp caps (Some p) s pos = None.
Proof. intros Hp. unfold consoleStackRegexp. cbn [re_match]. now rewrite Hp. Qed.

Lemma substring_at (text pre x post : string) (b m : nat) :
  text = pre +:+ x +:+ post -> b = String.length pre -> m = String.length x ->
  String.substring b m text = x.
Proof. intros -> -> ->. apply substring_middle. Qed.

Lemma last_byte_app (prev : option ascii) (a b : string) :
  last_byte prev (a +:+ b) = last_byte (last_byte prev a) b.
Proof.
  revert prev. induction a as [|x a IH]; intros prev; [reflexivity|].
  rewrite append_cons. simpl. apply IH.
Qed.

Lemma last_byte_all (P : ascii -> bool) (p : ascii) (a : string) :
  P p = true -> all_chars P a = true ->
  exists q : ascii, last_byte (Some p) a = Some q /\ P q = true.
Proof.
  revert p. induction a as [|x a IH]; intros p Hp Ha; simpl.
  - now exists p.
  - simpl in Ha. apply andb_true_iff in Ha as [Hx Ha]. now apply IH.
Qed.

Lemma not_LF_ascii_is (c : ascii) : not_LF c = true -> ascii_is LF c = false.
Proof. unfold not_LF. now intros H%negb_true_iff. Qed.

Lemma FindAll_skip (items : list re_item) (text : string) (a rest : string)
    (prev : option ascii) (pos k : nat) :
  FindAll_loop items text prev (a +:+ rest) pos (String.length a + k)
  = FindAll_loop items text (last_byte prev a) rest (pos + String.length a) k.
Proof.
  revert prev pos. induction a as [|c a IH]; intros prev pos.
  - change ("" +:+ rest) with rest. simpl. now rewrite Nat.add_0_r.
  - rewrite append_cons. simpl. rewrite IH. f_equal. lia.
Qed.

Lemma FindAll_inside (text : string) (a rest : string) (p : ascii) (pos : nat) :
  ascii_is LF p = false -> all_chars not_LF a = true ->
  FindAll_loop consoleStackRegexp text (Some p) (a +:+ rest) pos 0
  = FindAll_loop consoleStackRegexp text (last_byte (Some p) a) rest
      (pos + String.length a) 0.
Proof.
  revert p pos. induction a as [|c a IH]; intros p pos Hp Ha.
  - change ("" +:+ rest) with rest. simpl. now rewrite Nat.add_0_r.
  - rewrite append_cons. simpl in Ha. apply andb_true_iff in Ha as [Hc Ha].
    cbn [FindAll_loop]. rewrite no_match_inside by exact Hp.
    rewrite IH by (try exact Ha; now apply not_LF_ascii_is).
    simpl. f_equal. lia.
Qed.

Lemma FindAll_newline (text rest : string) (p : ascii) (pos : nat) :
  ascii_is LF p = false ->
  FindAll_loop consoleStackRegexp text (Some p) (String LF rest) pos 0
  = FindAll_loop consoleStackRegexp text (Some LF) rest (S pos) 0.
Proof. intros Hp. cbn [FindAll_loop]. now rewrite no_match_inside. Qed.

(** A plain line that starts no match is passed over. *)
Lemma FindAll_plain_line (text : string) (prev : option ascii) (c0 : ascii)
    (cs rest : string) (pos : nat) :
  is_blank c0 = false -> all_chars not_LF (String c0 cs) = true ->
  next_line_plain rest ->
  exists q : ascii,
    ascii_is LF q = false
    /\ FindAll_loop consoleStackRegexp text prev (String c0 cs +:+ rest) pos 0
       = FindAll_loop consoleStackRegexp text (Some q) rest
           (pos + String.length (String c0 cs)) 0.
Proof.
  intros Hc0 Hline Hnext.
  pose proof Hline as Hline'. simpl in Hline'.
  apply andb_true_iff in Hline' as [Hn0 Hcs].
  destruct (last_byte_all not_LF c0 cs Hn0 Hcs) as (q & Hq & HqLF).
  exists q. split; [now apply not_LF_ascii_is|].
  rewrite append_cons. cbn [FindAll_loop].
  rewrite no_match_at_line by assumption.
  rewrite FindAll_inside by (try exact Hcs; now apply not_LF_ascii_is).
  rewrite Hq. f_equal. simpl. lia.
Qed.

Lemma Sprintf_frame_rest (frame : Frame) (rest : string) :
  Sprintf_frame frame +:+ rest
  = Function frame
    +:+ String LF (String TAB (File frame +:+ String ":" (fmt_d (Line frame) +:+ rest))).
Proof.
  unfold Sprintf_frame, nl. rewrite !append_assoc. reflexivity.
Qed.

Lemma printable_inv (frame : Frame) :
  printable frame = true ->
  plain (Function frame) = true /\ plain (File frame) = true
  /\ 0 <= Line frame <= 2 ^ 31 - 1.
Proof.
  unfold printable. intros H.
  apply andb_true_iff in H as [H Hmax]. apply andb_true_iff in H as [H Hmin].
  apply andb_true_iff in H as [Hfn Hfile].
  repeat split; try assumption; lia.
Qed.

(** The two lines of a printable frame at the start of a line are found,
    with the function, the file and the numeral of the line as submatches,
    and the search goes on after them. *)
Lemma FindAll_frame (pre rest : string) (prev : option ascii) (frame : Frame) :
  line_start prev -> printable frame = true -> line_end rest ->
  exists q : ascii,
    ascii_is LF q = false
    /\ FindAll_loop consoleStackRegexp (pre +:+ Sprintf_frame frame +:+ rest)
         prev (Sprintf_frame frame +:+ rest) (String.length pre) 0
       = match_of_frame frame
         :: FindAll_loop consoleStackRegexp
              (pre +:+ Sprintf_frame frame +:+ rest) (Some q) rest
              (String.length pre + String.length (Sprintf_frame frame)) 0.
Proof.
  intros Hstart Hprint Hend.
  apply printable_inv in Hprint as (Hfn & Hfile & Hline).
  apply plain_inv in Hfn as (c0 & cs & HFn & Hc0 & HfnLF & _).
  apply plain_inv in Hfile as (f0 & fs & HFile & Hf0 & HfileLF & _).
  destruct (fmt_d_digits (Line frame) ltac:(lia)) as (d0 & ds & HDg & Hdig & _).
  assert (Hd0 : is_digit d0 = true /\ all_chars is_digit ds = true).
  { simpl in Hdig. now apply andb_true_iff in Hdig. }
  destruct (last_byte_all is_digit d0 ds (proj1 Hd0) (proj2 Hd0)) as (q & Hq & Hqd).
  exists q. split; [apply not_LF_ascii_is, digit_not_LF, Hqd|].
  set (text := pre +:+ Sprintf_frame frame +:+ rest).
  set (tail := cs +:+ String LF (String TAB (String f0
                 (fs +:+ String ":" (String d0 ds))))).
  assert (Hseg : Sprintf_frame frame = String c0 tail).
  { unfold Sprintf_frame, nl, tail. rewrite HFn, HFile, HDg. reflexivity. }
  assert (Hlen : String.length (Sprintf_frame frame)
                 = S (S (S (S (S (String.length cs)) + String.length fs))
                      + String.length (String d0 ds))).
  { rewrite Hseg. unfold tail. cbn [String.length].
    rewrite length_append. cbn [String.length].
    rewrite length_append. cbn [String.length]. lia. }
  assert (Htail : tail +:+ rest
                  = cs +:+ String LF (String TAB (String f0
                      (fs +:+ String ":" (String d0 ds +:+ rest))))).
  { unfold tail. rewrite append_assoc, !append_cons, append_assoc.
    reflexivity. }
  rewrite Hseg at 1. rewrite append_cons, Htail.
  rewrite HFn in HfnLF. rewrite HFile in HfileLF.
  cbn [FindAll_loop].
  rewrite match_frame by assumption.
  rewrite <- Htail.
  match goal with
  | |- context [FindAll_loop _ _ _ (tail +:+ rest) _ ?k] =>
      replace k with (String.length tail + 0)%nat
  end.
  2:{ rewrite Hseg in Hlen. cbn [String.length] in *. lia. }
  rewrite FindAll_skip.
  f_equal.
  - unfold match_of_frame, submatch. cbn [get_group Nat.eqb opened closed].
    f_equal; [|f_equal; [|f_equal; [|f_equal]]].
    + apply (substring_at text pre (Sprintf_frame frame) rest);
        [reflexivity | reflexivity | rewrite Hlen; lia].
    + apply (substring_at text pre (Function frame)
               (String LF (String TAB (File frame +:+ String ":"
                  (fmt_d (Line frame) +:+ rest)))));
        [unfold text; now rewrite Sprintf_frame_rest
        | reflexivity | rewrite HFn; cbn [String.length]; lia].
    + apply (substring_at text
               (pre +:+ Function frame +:+ String LF (String TAB ""))
               (File frame)
               (String ":" (fmt_d (Line frame) +:+ rest))).
      * unfold text. rewrite Sprintf_frame_rest, !append_assoc. reflexivity.
      * rewrite !length_append, HFn. cbn [String.length]. lia.
      * rewrite HFile. cbn [String.length]. lia.
    + apply (substring_at text
               (pre +:+ Function frame +:+ String LF (String TAB "")
                +:+ File frame +:+ ":")
               (fmt_d (Line frame)) rest).
      * unfold text. rewrite Sprintf_frame_rest, !append_assoc. reflexivity.
      * rewrite !length_append, HFn, HFile. cbn [String.length]. lia.
      * rewrite HDg. cbn [String.length]. lia.
  - f_equal.
    + assert (Hlast : last_byte (Some c0) tail = Some q).
      { unfold tail. rewrite last_byte_app. cbn [last_byte].
        rewrite last_byte_app. cbn [last_byte]. exact Hq. }
      exact Hlast.
    + rewrite Hseg. cbn [String.length]. lia.
Qed.

Lemma segments_text_cons (seg : segment) (segs : list segment) :
  segments_text (seg :: segs) = render_segment seg +:+ segments_rest segs.
Proof.
  destruct segs as [|seg' segs]; unfold segments_text; simpl.
  - now rewrite append_nil_r.
  - reflexivity.
Qed.

Lemma render_segment_head (seg : segment) :
  segment_ok seg = true ->
  exists (c : ascii) (t : string),
    render_segment seg = String c t /\ is_blank c = false.
Proof.
  destruct seg as [|frame]; simpl.
  - intros _. eexists _, _. split; reflexivity.
  - intros Hprint. apply printable_inv in Hprint as (Hfn & _ & _).
    apply plain_inv in Hfn as (c0 & cs & HFn & Hc0 & _ & _).
    unfold Sprintf_frame. rewrite HFn. eexists _, _. split; [|exact Hc0].
    now rewrite append_cons.
Qed.

Lemma segments_rest_plain (segs : list segment) :
  forallb segment_ok segs = true ->
  next_line_plain (segments_rest segs) /\ line_end (segments_rest segs).
Proof.
  destruct segs as [|seg segs]; [easy|]. simpl.
  intros [Hseg _]%andb_true_iff.
  destruct (render_segment_head seg Hseg) as (c & t & Hrender & Hc).
  unfold segments_rest, nl. rewrite segments_text_cons, Hrender.
  rewrite !append_cons. simpl. auto.
Qed.

(** The search over a text of segments finds the frames, in order. *)
Lemma FindAll_segments (segs : list segment) (pre : string) (prev : option ascii) :
  line_start prev -> forallb segment_ok segs = true ->
  FindAll_loop consoleStackRegexp (pre +:+ segments_text segs) prev
    (segments_text segs) (String.length pre) 0
  = map match_of_frame (segment_frames segs).
Proof.
  revert pre prev. induction segs as [|seg segs IH]; intros pre prev Hstart Hok.
  - reflexivity.
  - simpl in Hok. apply andb_true_iff in Hok as [Hseg Hsegs].
    destruct (segments_rest_plain segs Hsegs) as [Hnext Hend].
    rewrite segments_text_cons.
    assert (Hrest : forall q : ascii, ascii_is LF q = false ->
              FindAll_loop consoleStackRegexp
                (pre +:+ render_segment seg +:+ segments_rest segs) (Some q)
                (segments_rest segs)
                (String.length pre + String.length (render_segment seg)) 0
              = map match_of_frame (segment_frames segs)).
    { intros q Hq. destruct segs as [|seg' segs]; [reflexivity|].
      unfold segments_rest, nl. rewrite append_cons.
      change ("" +:+ segments_text (seg' :: segs))
        with (segments_text (seg' :: segs)).
      rewrite FindAll_newline by exact Hq.
      replace (pre +:+ render_segment seg
               +:+ String LF (segments_text (seg' :: segs)))
        with ((pre +:+ render_segment seg +:+ nl)
              +:+ segments_text (seg' :: segs))
        by (unfold nl; now rewrite !append_assoc).
      replace (S (String.length pre + String.length (render_segment seg)))
        with (String.length (pre +:+ render_segment seg +:+ nl))
        by (rewrite !length_append; simpl; lia).
      apply IH; [now right | exact Hsegs]. }
    destruct seg as [|frame].
    + destruct (plain_inv stackDivider eq_refl) as (c0 & cs & HD & Hc0 & HLF & _).
      cbn [render_segment segment_frames] in *. rewrite HD in *.
      destruct (FindAll_plain_line
                  (pre +:+ String c0 cs +:+ segments_rest segs) prev c0 cs
                  (segments_rest segs) (String.length pre) Hc0 HLF Hnext)
        as (q & Hq & Hgo).
      rewrite Hgo. now apply Hrest.
    + cbn [render_segment segment_frames segment_ok] in *.
      destruct (FindAll_frame pre (segments_rest segs) prev frame Hstart Hseg Hend)
        as (q & Hq & Hgo).
      rewrite Hgo. cbn [map]. f_equal. now apply Hrest.
Qed.

(** ** The human-readable form, read back *)

Lemma strconv_ParseInt32_numeral (d0 : ascii) (ds : string) (n : Z) :
  is_digit d0 = true -> digits_value 0 (String d0 ds) = Some n ->
  0 <= n <= 2 ^ 31 - 1 ->
  strconv_ParseInt32 (String d0 ds) = n.
Proof.
  intros Hd0 Hval Hn. unfold strconv_ParseInt32.
  destruct d0 as [[] [] [] [] [] [] [] []]; try discriminate Hd0;
    cbv beta iota; rewrite Hval; lia.
Qed.

Lemma frame_of_match_of_frame (frame : Frame) :
  printable frame = true -> frame_of_match (match_of_frame frame) = frame.
Proof.
  intros Hprint. apply printable_inv in Hprint as (_ & _ & Hline).
  destruct (fmt_d_digits (Line frame) ltac:(lia)) as (d0 & ds & HDg & Hdig & Hval).
  unfold frame_of_match, match_of_frame. cbn [nth]. rewrite HDg.
  rewrite (strconv_ParseInt32_numeral d0 ds (Line frame)); try assumption.
  - now destruct frame.
  - simpl in Hdig. now apply andb_true_iff in Hdig as [H _].
Qed.

Lemma concat_nl_app (a b : list string) :
  a <> [] -> b <> [] ->
  String.concat nl (a ++ b) = String.concat nl a +:+ nl +:+ String.concat nl b.
Proof.
  intros Ha Hb. induction a as [|x a IH]; [congruence|].
  destruct a as [|y a].
  - destruct b as [|z b]; [congruence|]. reflexivity.
  - change (String.concat nl ((x :: y :: a) ++ b))
      with (x +:+ nl +:+ String.concat nl ((y :: a) ++ b)).
    rewrite IH by discriminate.
    change (String.concat nl (x :: y :: a))
      with (x +:+ nl +:+ String.concat nl (y :: a)).
    now rewrite !append_assoc.
Qed.

Lemma segments_text_app (a b : list segment) :
  a <> [] -> b <> [] ->
  segments_text (a ++ b) = segments_text a +:+ nl +:+ segments_text b.
Proof.
  intros Ha Hb. unfold segments_text. rewrite map_app.
  apply concat_nl_app; now destruct a, b.
Qed.

Lemma stack_piece_segments (stack : Stack) :
  trimStack stack <> [] ->
  stack_piece stack = segments_text (stack_segments stack).
Proof.
  intros Hne. unfold stack_piece, stack_segments.
  rewrite Stack_Format_concat, segments_text_app;
    [|now destruct (trimStack stack) | discriminate].
  unfold segments_text. now rewrite map_map.
Qed.

Lemma stack_pieces_segments (s : Stacks) :
  s <> [] -> Forall (fun stack => trimStack stack <> []) s ->
  String.concat nl (map stack_piece s)
  = segments_text (concat (map stack_segments s)).
Proof.
  intros Hne Hall. induction Hall as [|stack s Hstack Hall IH]; [congruence|].
  destruct s as [|stack' s].
  - simpl. rewrite app_nil_r. now apply stack_piece_segments.
  - change (String.concat nl (map stack_piece (stack :: stack' :: s)))
      with (stack_piece stack +:+ nl
            +:+ String.concat nl (map stack_piece (stack' :: s))).
    rewrite IH by discriminate.
    change (concat (map stack_segments (stack :: stack' :: s)))
      with (stack_segments stack ++ concat (map stack_segments (stack' :: s))).
    rewrite segments_text_app, stack_piece_segments by
      first [exact Hstack
            | unfold stack_segments; now destruct (trimStack stack)
            | simpl; unfold stack_segments; now destruct (trimStack stack')].
    reflexivity.
Qed.

Lemma Stacks_Format_segments (s : Stacks) :
  s <> [] -> Forall (fun stack => trimStack stack <> []) s ->
  Stacks_Format s = segments_text (stacks_segments s).
Proof.
  intros Hne Hall. unfold Stacks_Format, stacks_segments.
  rewrite Stacks_Format_loop_concat by lia.
  rewrite stack_pieces_segments by assumption.
  rewrite segments_text_cons. rewrite append_assoc.
  assert (HX : exists seg X', concat (map stack_segments s) = seg :: X').
  { destruct s as [|stack s]; [congruence|]. simpl. unfold stack_segments at 1.
    destruct (trimStack stack); simpl; eauto. }
  destruct HX as (seg & X' & ->). reflexivity.
Qed.

Lemma segment_frames_app (a b : list segment) :
  segment_frames (a ++ b) = segment_frames a ++ segment_frames b.
Proof.
  induction a as [|[|frame] a IH]; simpl; [reflexivity | exact IH |].
  now rewrite IH.
Qed.

Lemma segment_frames_stack (stack : Stack) :
  segment_frames (stack_segments stack) = trimStack stack.
Proof.
  unfold stack_segments. rewrite segment_frames_app. simpl.
  rewrite app_nil_r. induction (trimStack stack) as [|f l IH]; simpl;
    [reflexivity | now rewrite IH].
Qed.

Lemma segment_frames_stacks (s : Stacks) :
  segment_frames (stacks_segments s) = concat (map trimStack s).
Proof.
  unfold stacks_segments. simpl. induction s as [|stack s IH]; [reflexivity|].
  simpl. now rewrite segment_frames_app, segment_frames_stack, IH.
Qed.

Lemma segment_ok_stacks (s : Stacks) :
  Forall (fun stack => forallb printable (trimStack stack) = true) s ->
  forallb segment_ok (stacks_segments s) = true.
Proof.
  intros Hall. unfold stacks_segments. simpl.
  induction Hall as [|stack s Hstack Hall IH]; [reflexivity|].
  simpl. rewrite forallb_app, IH, andb_true_r.
  unfold stack_segments. rewrite forallb_app. simpl. rewrite andb_true_r.
  clear -Hstack. induction (trimStack stack) as [|f l IHl]; [reflexivity|].
  simpl in *. apply andb_true_iff in Hstack as [Hf Hl].
  now rewrite Hf, IHl.
Qed.

Lemma json_parse_not_value (rest : string) : json_parse (String "=" rest) = None.
Proof.
  unfold json_parse.
  destruct (2 * String.length (String "=" rest) + 2)%nat as [|fuel];
    reflexivity.
Qed.

Lemma without_CR_id (t : string) :
  all_chars not_CR t = true -> without_CR t = t.
Proof.
  induction t as [|c t IH]; [reflexivity|]. simpl.
  intros [Hc Ht]%andb_true_iff. unfold not_CR in Hc.
  apply negb_true_iff in Hc. now rewrite Hc, IH.
Qed.

Lemma digit_not_CR (c : ascii) : is_digit c = true -> not_CR c = true.
Proof.
  intros Hd. unfold not_CR, ascii_is. destruct (Ascii.eqb_spec c CR) as [->|_];
    [discriminate | reflexivity].
Qed.

Lemma plain_not_CR (t : string) : plain t = true -> all_chars not_CR t = true.
Proof. intros H. now apply plain_inv in H as (c & t' & _ & _ & _ & H). Qed.

Lemma plain_not_LF (t : string) : plain t = true -> all_chars not_LF t = true.
Proof. intros H. now apply plain_inv in H as (c & t' & _ & _ & H & _). Qed.

Lemma fmt_d_all_digits (n : Z) : 0 <= n -> all_chars is_digit (fmt_d n) = true.
Proof.
  intros Hn. destruct (fmt_d_digits n Hn) as (c & ds & -> & H & _). exact H.
Qed.

Lemma render_segment_not_CR (seg : segment) :
  segment_ok seg = true -> all_chars not_CR (render_segment seg) = true.
Proof.
  destruct seg as [|frame]; [reflexivity|]. simpl. intros Hprint.
  apply printable_inv in Hprint as (Hfn & Hfile & Hline).
  unfold Sprintf_frame. rewrite !all_chars_app.
  rewrite (plain_not_CR _ Hfn), (plain_not_CR _ Hfile).
  rewrite (all_chars_impl is_digit not_CR _ digit_not_CR
             (fmt_d_all_digits _ (proj1 Hline))).
  reflexivity.
Qed.

Lemma segments_text_not_CR (segs : list segment) :
  forallb segment_ok segs = true ->
  all_chars not_CR (segments_text segs) = true.
Proof.
  induction segs as [|seg segs IH]; [reflexivity|]. simpl.
  intros [Hseg Hsegs]%andb_true_iff.
  rewrite segments_text_cons, all_chars_app, render_segment_not_CR by exact Hseg.
  destruct segs as [|seg' segs]; [reflexivity|].
  unfold segments_rest. rewrite all_chars_app. now rewrite IH.
Qed.

Lemma no_blank_line_cons (a b : ascii) (s : string) :
  no_blank_line (String a (String b s))
  = negb (ascii_is LF a && ascii_is LF b) && no_blank_line (String b s).
Proof. reflexivity. Qed.

Lemma no_blank_line_line (l rest : string) :
  all_chars not_LF l = true -> l <> "" ->
  (rest = "" \/
   exists (c : ascii) (r : string),
     rest = String LF (String c r) /\ not_LF c = true
     /\ no_blank_line (String c r) = true) ->
  no_blank_line (l +:+ rest) = true
  /\ exists (c : ascii) (r : string), l +:+ rest = String c r /\ not_LF c = true.
Proof.
  intros Hl Hne Hrest. split.
  - induction l as [|a l IH]; [congruence|].
    simpl in Hl. apply andb_true_iff in Hl as [Ha Hl].
    apply not_LF_ascii_is in Ha as Ha'.
    destruct l as [|b l].
    + change (String a "" +:+ rest) with (String a rest).
      destruct Hrest as [->|(c & r & -> & Hc & Hr)]; [reflexivity|].
      rewrite !no_blank_line_cons, Ha', (not_LF_ascii_is c Hc), andb_false_r.
      exact Hr.
    + rewrite !append_cons, no_blank_line_cons, Ha'. cbn [andb negb].
      rewrite <- append_cons. apply IH; [exact Hl | discriminate].
  - destruct l as [|a l]; [congruence|]. simpl in Hl.
    apply andb_true_iff in Hl as [Ha _]. rewrite append_cons. eauto.
Qed.

Lemma render_segment_no_blank_line (seg : segment) (rest : string) :
  segment_ok seg = true ->
  (rest = "" \/
   exists (c : ascii) (r : string),
     rest = String LF (String c r) /\ not_LF c = true
     /\ no_blank_line (String c r) = true) ->
  no_blank_line (render_segment seg +:+ rest) = true
  /\ exists (c : ascii) (r : string),
       render_segment seg +:+ rest = String c r /\ not_LF c = true.
Proof.
  intros Hok Hrest. destruct seg as [|frame].
  - apply no_blank_line_line; [reflexivity | discriminate | exact Hrest].
  - simpl in *. apply printable_inv in Hok as (Hfn & Hfile & Hline).
    rewrite Sprintf_frame_rest.
    assert (Hline2 : all_chars not_LF
                       (String TAB (File frame +:+ String ":" (fmt_d (Line frame))))
                     = true).
    { cbn [all_chars]. rewrite all_chars_app, (plain_not_LF _ Hfile).
      cbn [all_chars].
      rewrite (all_chars_impl is_digit not_LF _ digit_not_LF
                 (fmt_d_all_digits _ (proj1 Hline))).
      reflexivity. }
    destruct (no_blank_line_line _ rest Hline2 ltac:(discriminate) Hrest)
      as (Hnbl & c & r & Heq & Hc).
    apply no_blank_line_line.
    + now apply plain_not_LF.
    + destruct (Function frame); [discriminate Hfn | discriminate].
    + right. exists TAB, (File frame +:+ String ":" (fmt_d (Line frame) +:+ rest)).
      split; [reflexivity|]. split; [reflexivity|].
      rewrite append_cons, append_assoc in Hnbl. exact Hnbl.
Qed.

Lemma segments_text_no_blank_line (seg : segment) (segs : list segment) :
  forallb segment_ok (seg :: segs) = true ->
  no_blank_line (segments_text (seg :: segs)) = true
  /\ exists (c : ascii) (r : string),
       segments_text (seg :: segs) = String c r /\ not_LF c = true.
Proof.
  revert seg. induction segs as [|seg' segs IH]; intros seg Hok;
    simpl in Hok; apply andb_true_iff in Hok as [Hseg Hsegs];
    rewrite segments_text_cons.
  - apply render_segment_no_blank_line; [exact Hseg | now left].
  - destruct (IH seg' Hsegs) as (Hnbl & c & r & Heq & Hc).
    apply render_segment_no_blank_line; [exact Hseg|].
    right. exists c, r. unfold segments_rest, nl. rewrite Heq in *.
    repeat split; assumption.
Qed.

Lemma Split_no_blank_line (t cur : string) :
  no_blank_line t = true ->
  Split_loop (nl +:+ nl) cur 0 t = [cur +:+ t].
Proof.
  revert cur. induction t as [|a t IH]; intros cur Hnbl.
  - simpl. now rewrite append_nil_r.
  - cbn [Split_loop].
    assert (Hpre : String.prefix (nl +:+ nl) (String a t) = false).
    { unfold nl. change (String LF "" +:+ String LF "")
        with (String LF (String LF "")).
      destruct t as [|b t].
      - cbn [String.prefix]. now destruct (ascii_dec LF a).
      - rewrite no_blank_line_cons in Hnbl.
        apply andb_true_iff in Hnbl as [Hab _]. apply negb_true_iff in Hab.
        cbn [String.prefix].
        destruct (ascii_dec LF a) as [<-|_]; [|reflexivity].
        destruct (ascii_dec LF b) as [<-|_]; [|reflexivity].
        discriminate Hab. }
    rewrite Hpre, IH.
    + now rewrite append_assoc.
    + destruct t as [|b t]; [reflexivity|]. rewrite no_blank_line_cons in Hnbl.
      now apply andb_true_iff in Hnbl as [_ H].
Qed.

Lemma normalize_newlines_id (t : string) :
  all_chars not_CR t = true -> normalize_newlines t = t.
Proof.
  intros H. unfold normalize_newlines, strings_ReplaceAll.
  rewrite ReplaceAll_CR, ReplaceAll_CRLF_without_CR. now apply without_CR_id.
Qed.

(** X22. Round trip through the human-readable form.  For a set with at
    least one stack, where every stack still has a frame once its trailing
    runtime frames are dropped, and every such frame is printable (function
    and file are non-empty, start with a byte other than space and tab and
    hold no newline or carriage return; the line is between 0 and 2^31-1),
    [ParseStacks] reads the output of [Stacks.Format] back as exactly one
    stack: the frames of all the trimmed stacks, in order.  For a single
    stack this is the stack that was written, without its runtime frames;
    for several stacks their boundaries are lost. *)
Theorem ParseStacks_Format_printable (s : Stacks) :
  s <> [] ->
  Forall (fun stack => trimStack stack <> []
                       /\ forallb printable (trimStack stack) = true) s ->
  ParseStacks (Stacks_Format s) = [concat (map trimStack s)].
Proof.
  intros Hne Hall.
  assert (Htrim : Forall (fun stack => trimStack stack <> []) s)
    by (eapply Forall_impl; [exact Hall | now intros ? []]).
  assert (Hprint : Forall (fun stack => forallb printable (trimStack stack) = true) s)
    by (eapply Forall_impl; [exact Hall | now intros ? []]).
  pose proof (segment_ok_stacks s Hprint) as Hok.
  pose proof (segment_frames_stacks s) as Hframes.
  rewrite (Stacks_Format_segments s Hne Htrim).
  set (segs := stacks_segments s) in *.
  assert (Hframe : exists frame frames,
             segment_frames segs = frame :: frames).
  { rewrite Hframes. destruct s as [|stack s]; [congruence|].
    apply Forall_cons in Htrim as [Hstack _]. simpl.
    destruct (trimStack stack) as [|frame frames]; [congruence|].
    simpl. eauto. }
  assert (Hhead : exists rest, segments_text segs = String "=" rest).
  { subst segs. unfold stacks_segments. rewrite segments_text_cons.
    cbn [render_segment]. unfold stackDivider. rewrite append_cons. eauto. }
  assert (Hseg : exists seg segs', segs = seg :: segs')
    by (subst segs; unfold stacks_segments; eauto).
  unfold ParseStacks, json_Unmarshal_Stacks.
  destruct Hhead as (rest & Hhead). rewrite Hhead at 1.
  rewrite json_parse_not_value. cbn [andb].
  unfold console_blocks, strings_Split.
  rewrite normalize_newlines_id by now apply segments_text_not_CR.
  destruct Hseg as (seg & segs' & Hseg).
  rewrite Split_no_blank_line
    by (rewrite Hseg in *; now apply segments_text_no_blank_line).
  change ("" +:+ segments_text segs) with (segments_text segs).
  cbn [ParseStacks_blocks]. unfold FindAllStringSubmatch.
  pose proof (FindAll_segments segs "" None (or_introl eq_refl) Hok) as Hfind.
  change ("" +:+ segments_text segs) with (segments_text segs) in Hfind.
  change (String.length "") with 0%nat in Hfind.
  rewrite Hfind.
  assert (Hall_ok : forallb printable (segment_frames segs) = true).
  { rewrite Hframes. apply forallb_forall. intros x Hx.
    apply in_concat in Hx as (l & Hl & Hx).
    apply in_map_iff in Hl as (st & <- & Hst).
    rewrite List.Forall_forall in Hprint. specialize (Hprint st Hst).
    eapply forallb_forall in Hprint; eauto. }
  assert (Hid : map frame_of_match (map match_of_frame (segment_frames segs))
                = segment_frames segs).
  { rewrite map_map. rewrite <- (map_id (segment_frames segs)) at 2.
    apply map_ext_in. intros fr Hin. apply frame_of_match_of_frame.
    eapply forallb_forall in Hall_ok; eauto. }
  rewrite <- Hframes.
  destruct Hframe as (frame & frames & Hframe).
  rewrite Hframe in Hid |- *. cbn [map app] in *. now rewrite Hid.
Qed.

Lemma ParseStacks_Format_printable_witness :
  ParseStacks
    (Stacks_Format
       [[mkFrame "main.f" "/src/a.go" 3; mkFrame "runtime.main" "proc.go" 250];
        [mkFrame "main.g" "C:/src/b.go" 41]])
  = [[mkFrame "main.f" "/src/a.go" 3; mkFrame "main.g" "C:/src/b.go" 41]].
Proof.
  apply (ParseStacks_Format_printable
           [[mkFrame "main.f" "/src/a.go" 3; mkFrame "runtime.main" "proc.go" 250];
            [mkFrame "main.g" "C:/src/b.go" 41]]).
  - discriminate.
  - repeat constructor; vm_compute; congruence.
Defined.

(** ** The structured form read back *)

Lemma json_escape_byte (c : ascii) (t : string) :
  ascii_byte c = true ->
  json_escape (String c t) = json_escape (String c "") +:+ json_escape t.
Proof.
  destruct c as [[] [] [] [] [] [] [] []]; try discriminate; intros _; reflexivity.
Qed.

Lemma json_escape_byte_scan (c : ascii) (fuel : nat) (rest acc : string) :
  ascii_byte c = true ->
  scan_string (S fuel) (json_escape (String c "") +:+ rest) acc
  = scan_string fuel rest (acc +:+ String c "").
Proof.
  destruct c as [[] [] [] [] [] [] [] []]; try discriminate; intros _; reflexivity.
Qed.

Lemma json_escape_byte_line (c : ascii) :
  ascii_byte c = true ->
  all_chars no_line_break (json_escape (String c "")) = true
  /\ json_escape (String c "") <> "".
Proof.
  destruct c as [[] [] [] [] [] [] [] []]; try discriminate; intros _;
    (split; [reflexivity | discriminate]).
Qed.

Lemma json_escape_length (t : string) :
  ascii_text t = true -> (String.length t <= String.length (json_escape t))%nat.
Proof.
  induction t as [|c t IH]; [reflexivity|].
  intros [Hc Ht]%andb_true_iff.
  rewrite (json_escape_byte c t Hc), length_append.
  destruct (json_escape_byte_line c Hc) as [_ Hne]. specialize (IH Ht).
  destruct (json_escape (String c "")); [congruence|]. simpl in *. lia.
Qed.

Lemma scan_string_escape (t : string) (fuel : nat) (rest acc : string) :
  ascii_text t = true -> (String.length t < fuel)%nat ->
  scan_string fuel (json_escape t +:+ String QUOTE rest) acc
  = Some (acc +:+ t, rest).
Proof.
  revert fuel acc. induction t as [|c t IH]; intros fuel acc Hascii Hfuel.
  - destruct fuel as [|fuel]; [simpl in Hfuel; lia|].
    now rewrite append_nil_r.
  - apply andb_true_iff in Hascii as [Hc Ht].
    destruct fuel as [|fuel]; [simpl in Hfuel; lia|].
    rewrite (json_escape_byte c t Hc), append_assoc.
    rewrite (json_escape_byte_scan c fuel _ acc Hc).
    rewrite IH; [|exact Ht | simpl in Hfuel; lia].
    now rewrite append_assoc.
Qed.

Lemma json_quote_cons (t rest : string) :
  json_quote t +:+ rest = String QUOTE (json_escape t +:+ String QUOTE rest).
Proof.
  unfold json_quote. now rewrite !append_cons, append_assoc.
Qed.

Lemma scan_string_quote (t rest : string) :
  ascii_text t = true ->
  scan_string (String.length (json_escape t +:+ String QUOTE rest))
    (json_escape t +:+ String QUOTE rest) ""
  = Some (t, rest).
Proof.
  intros Ht. rewrite scan_string_escape; [reflexivity | exact Ht |].
  rewrite length_append. pose proof (json_escape_length t Ht). simpl. lia.
Qed.

Lemma parse_value_string (t rest : string) (fuel : nat) :
  ascii_text t = true ->
  parse_value (S fuel) (json_quote t +:+ rest) = Some (JStr t, rest).
Proof.
  intros Ht. rewrite json_quote_cons.
  change (parse_value (S fuel) (String QUOTE ?s))
    with (match scan_string (String.length s) s "" with
          | Some (str, r) => Some (JStr str, r)
          | None => None
          end).
  now rewrite scan_string_quote.
Qed.

Lemma to_uint_no_leading_zero (p : positive) (d : Decimal.uint) :
  Pos.to_uint p <> Decimal.D0 d.
Proof.
  intros H.
  pose proof (DecimalPos.Unsigned.to_of (Pos.to_uint p)) as Hnorm.
  rewrite DecimalPos.Unsigned.of_to in Hnorm. simpl in Hnorm.
  rewrite H, DecimalFacts.unorm_D0 in Hnorm.
  destruct (Decimal.uint_eq_dec d Decimal.Nil) as [->|Hd].
  - now apply (DecimalPos.Unsigned.to_uint_nonzero p).
  - pose proof (DecimalFacts.nb_digits_unorm d Hd) as Hlen.
    rewrite <- Hnorm in Hlen. simpl in Hlen. lia.
Qed.

Lemma positive_numeral (p : positive) :
  exists (c : ascii) (ds : string),
    NilZero.string_of_uint (Pos.to_uint p) = String c ds
    /\ all_chars is_digit (String c ds) = true
    /\ digits_value 0 (String c ds) = Some (Zpos p)
    /\ c <> "0"%char.
Proof.
  pose proof (DecimalPos.Unsigned.to_uint_nonnil p) as Hnil.
  pose proof (to_uint_no_leading_zero p) as Hzero.
  pose proof (all_digits_uint (Pos.to_uint p)) as Hall.
  pose proof (digits_value_uint (Pos.to_uint p) 0) as Hval.
  pose proof (DecimalPos.Unsigned.of_to p) as Hof.
  rewrite horner_of_uint in Hval. unfold Z.of_uint in Hval.
  rewrite Hof in Hval. unfold NilZero.string_of_uint.
  destruct (Pos.to_uint p) eqn:Hd; [congruence | now destruct (Hzero u) | ..];
    simpl NilEmpty.string_of_uint in *; eexists _, _; (split; [reflexivity|]);
    (split; [assumption|]); (split; [assumption | discriminate]).
Qed.

(** The numeral that [%d] prints: a minus sign for a negative number, then
    the digits of the absolute value, at least one and without a leading
    zero. *)
Lemma fmt_d_numeral (n : Z) :
  exists (c : ascii) (ds : string),
    fmt_d n = (if n <? 0 then "-" else "") +:+ String c ds
    /\ all_chars is_digit (String c ds) = true
    /\ digits_value 0 (String c ds) = Some (Z.abs n)
    /\ (c = "0"%char -> ds = "").
Proof.
  unfold fmt_d. destruct n as [|p|p].
  - exists "0"%char, "". repeat split.
  - destruct (positive_numeral p) as (c & ds & Heq & Hall & Hval & Hc).
    exists c, ds. simpl. rewrite Heq. repeat split; try assumption.
    intros ->. congruence.
  - destruct (positive_numeral p) as (c & ds & Heq & Hall & Hval & Hc).
    exists c, ds. simpl. rewrite Heq. repeat split; try assumption.
    intros ->. congruence.
Qed.

Lemma span_digits_app (a b : string) :
  all_chars is_digit a = true -> stops is_digit b ->
  span_digits (a +:+ b) = (a, b).
Proof.
  intros Ha Hb. induction a as [|x a IH].
  - destruct b as [|y b]; [reflexivity|]. simpl in *. now rewrite Hb.
  - simpl in Ha. apply andb_true_iff in Ha as [Hx Ha].
    rewrite append_cons. cbn [span_digits]. now rewrite Hx, IH.
Qed.

Lemma scan_number_numeral (neg : bool) (c : ascii) (ds rest : string) :
  all_chars is_digit (String c ds) = true ->
  (c = "0"%char -> ds = "") ->
  scan_number ((if neg then "-" else "") +:+ String c ds +:+ String "}" rest)
  = Some ((if neg then "-" else "") +:+ String c ds, String "}" rest).
Proof.
  intros [Hc Hds]%andb_true_iff Hzero.
  pose proof (span_digits_app ds (String "}" rest) Hds eq_refl) as Hspan.
  destruct c as [[] [] [] [] [] [] [] []]; try discriminate Hc;
    destruct neg; unfold scan_number;
    rewrite ?append_cons; change ("" +:+ ?x) with x;
    try (rewrite (Hzero eq_refl); reflexivity);
    cbn [span_digits is_digit digit_value]; rewrite ?append_cons; cbn [span_digits].
  all: rewrite Hc, Hspan; cbn; rewrite ?append_cons; cbn;
    now rewrite ?append_nil_r.
Qed.

Lemma parse_value_number_start (c : ascii) (s : string) (fuel : nat) :
  is_digit c = true \/ c = "-"%char ->
  parse_value (S fuel) (String c s)
  = option_map (fun '(lit, r) => (JNum lit, r)) (scan_number (String c s)).
Proof.
  intros [H| ->]; [|reflexivity].
  destruct c as [[] [] [] [] [] [] [] []]; try discriminate H; reflexivity.
Qed.

Lemma parse_value_number (n : Z) (rest : string) (fuel : nat) :
  parse_value (S fuel) (fmt_d n +:+ String "}" rest)
  = Some (JNum (fmt_d n), String "}" rest).
Proof.
  destruct (fmt_d_numeral n) as (c & ds & Heq & Hall & _ & Hzero).
  pose proof (scan_number_numeral (n <? 0) c ds rest Hall Hzero) as Hscan.
  rewrite Heq. rewrite <- append_assoc in Hscan.
  assert (Hstart : exists c' s',
             ((if n <? 0 then "-" else "") +:+ String c ds) +:+ String "}" rest
             = String c' s' /\ (is_digit c' = true \/ c' = "-"%char)).
  { destruct (n <? 0).
    - eexists _, _. split; [reflexivity | now right].
    - exists c, (ds +:+ String "}" rest). split; [reflexivity | left].
      simpl in Hall. now apply andb_true_iff in Hall as [Hc _]. }
  destruct Hstart as (c' & s' & Hs & Hc'). rewrite Hs in *.
  rewrite parse_value_number_start by exact Hc'. now rewrite Hscan.
Qed.

Lemma parse_members_quote (fuel : nat) (s : string)
    (acc : list (string * jvalue)) :
  parse_members (S fuel) (String QUOTE s) acc
  = match scan_string (String.length s) s "" with
    | None => None
    | Some (key, r) =>
        match skip_space r with
        | String ":" r' =>
            match parse_value fuel r' with
            | None => None
            | Some (v, r'') =>
                match skip_space r'' with
                | String "," r3 => parse_members fuel r3 (acc ++ [(key, v)])
                | String "}" r3 => Some (JObj (acc ++ [(key, v)]), r3)
                | _ => None
                end
            end
        | _ => None
        end
    end.
Proof. reflexivity. Qed.

Lemma parse_members_member (fuel : nat) (key body : string)
    (acc : list (string * jvalue)) :
  ascii_text key = true ->
  parse_members (S fuel) (json_quote key +:+ String ":" body) acc
  = match parse_value fuel body with
    | None => None
    | Some (v, r'') =>
        match skip_space r'' with
        | String "," r3 => parse_members fuel r3 (acc ++ [(key, v)])
        | String "}" r3 => Some (JObj (acc ++ [(key, v)]), r3)
        | _ => None
        end
    end.
Proof.
  intros Hkey. rewrite json_quote_cons, parse_members_quote.
  now rewrite scan_string_quote.
Qed.

Lemma parse_value_object (fuel : nat) (s : string) :
  parse_value (S fuel) (String "{" (String QUOTE s))
  = parse_members fuel (String QUOTE s) [].
Proof. reflexivity. Qed.

Lemma append_nil_l (s : string) : "" +:+ s = s.
Proof. reflexivity. Qed.

Lemma json_Marshal_jsonFrame_text (f : jsonFrame) (rest : string) :
  json_Marshal_jsonFrame f +:+ rest
  = String "{" (json_quote "function" +:+ String ":" (json_quote (jFunction f)
      +:+ String "," (json_quote "file" +:+ String ":" (json_quote (jFile f)
      +:+ String "," (json_quote "line" +:+ String ":" (fmt_d (jLine f)
      +:+ String "}" rest)))))).
Proof.
  unfold json_Marshal_jsonFrame.
  now rewrite !append_assoc, !append_cons, !append_nil_l.
Qed.

Lemma skip_space_comma (s : string) : skip_space (String "," s) = String "," s.
Proof. reflexivity. Qed.

Lemma skip_space_brace (s : string) : skip_space (String "}" s) = String "}" s.
Proof. reflexivity. Qed.

Lemma skip_space_bracket (s : string) : skip_space (String "]" s) = String "]" s.
Proof. reflexivity. Qed.

Lemma parse_value_frame (f : jsonFrame) (fuel : nat) (rest : string) :
  ascii_text (jFunction f) = true -> ascii_text (jFile f) = true ->
  (5 <= fuel)%nat ->
  parse_value fuel (json_Marshal_jsonFrame f +:+ rest)
  = Some (frame_value f, rest).
Proof.
  intros Hfn Hfile Hfuel.
  do 5 (destruct fuel as [|fuel]; [lia|]).
  rewrite json_Marshal_jsonFrame_text.
  rewrite (json_quote_cons "function"), parse_value_object,
    <- (json_quote_cons "function").
  rewrite parse_members_member by reflexivity.
  rewrite parse_value_string, skip_space_comma by exact Hfn.
  rewrite parse_members_member by reflexivity.
  rewrite parse_value_string, skip_space_comma by exact Hfile.
  rewrite parse_members_member by reflexivity.
  now rewrite parse_value_number, skip_space_brace.
Qed.

Lemma json_Marshal_jsonFrame_length (f : jsonFrame) :
  (5 <= String.length (json_Marshal_jsonFrame f))%nat.
Proof.
  rewrite <- (append_nil_r (json_Marshal_jsonFrame f)).
  rewrite json_Marshal_jsonFrame_text. unfold json_quote.
  rewrite !append_cons. cbn [String.length]. rewrite !length_append.
  cbn [String.length]. lia.
Qed.

Lemma concat_cons_cons (sep x y : string) (l : list string) :
  String.concat sep (x :: y :: l) = x +:+ sep +:+ String.concat sep (y :: l).
Proof. reflexivity. Qed.

Lemma parse_elems_eq (fuel : nat) (s : string) (acc : list jvalue) :
  parse_elems (S fuel) s acc
  = match parse_value fuel s with
    | None => None
    | Some (v, r) =>
        match skip_space r with
        | String "," r' => parse_elems fuel r' (acc ++ [v])
        | String "]" r' => Some (JArr (acc ++ [v]), r')
        | _ => None
        end
    end.
Proof. reflexivity. Qed.

Section Arrays.
Context {A : Type}.
Variable enc : A -> string.
Variable val : A -> jvalue.
Variable P : A -> Prop.
Variable c0 : ascii.
Hypothesis parse_value_enc : forall (a : A) (fuel : nat) (rest : string),
  P a -> (String.length (enc a) <= fuel)%nat ->
  parse_value fuel (enc a +:+ rest) = Some (val a, rest).
Hypothesis enc_start : forall a : A, exists s : string, enc a = String c0 s.
Hypothesis parse_value_start : forall (fuel : nat) (s : string),
  parse_value (S fuel) (String "[" (String c0 s))
  = parse_elems fuel (String c0 s) [].

Lemma parse_elems_list (l : list A) (a : A) (fuel : nat) (acc : list jvalue)
    (rest : string) :
  Forall P (a :: l) ->
  (String.length (String.concat "," (map enc (a :: l))) < fuel)%nat ->
  parse_elems fuel (String.concat "," (map enc (a :: l)) +:+ String "]" rest) acc
  = Some (JArr (acc ++ map val (a :: l)), rest).
Proof.
  revert a fuel acc. induction l as [|b l IH]; intros a fuel acc Hall Hfuel;
    apply Forall_cons in Hall as [Ha Hall];
    (destruct fuel as [|fuel]; [lia|]); rewrite parse_elems_eq.
  - cbn [map String.concat] in *.
    rewrite parse_value_enc by (assumption || lia).
    now rewrite skip_space_bracket.
  - change (map enc (a :: b :: l)) with (enc a :: enc b :: map enc l) in *.
    rewrite concat_cons_cons in *.
    rewrite !length_append in Hfuel. cbn [String.length] in Hfuel.
    rewrite !append_assoc, append_cons, append_nil_l.
    rewrite parse_value_enc by (assumption || lia).
    rewrite skip_space_comma.
    change (enc b :: map enc l) with (map enc (b :: l)) in *.
    rewrite IH by (assumption || lia).
    now rewrite <- app_assoc.
Qed.

Lemma parse_value_array (l : list A) (fuel : nat) (rest : string) :
  Forall P l ->
  (String.length ("[" +:+ String.concat "," (map enc l) +:+ "]") <= fuel)%nat ->
  parse_value fuel (("[" +:+ String.concat "," (map enc l) +:+ "]") +:+ rest)
  = Some (JArr (map val l), rest).
Proof.
  intros Hall Hfuel.
  rewrite append_cons, append_nil_l in Hfuel. cbn [String.length] in Hfuel.
  rewrite length_append in Hfuel. cbn [String.length] in Hfuel.
  rewrite !append_cons, !append_nil_l, append_assoc, append_cons, append_nil_l.
  destruct fuel as [|fuel]; [lia|].
  destruct l as [|a l].
  - reflexivity.
  - pose proof (parse_elems_list l a fuel [] rest Hall ltac:(lia)) as Hparse.
    assert (Hstart : exists s, String.concat "," (map enc (a :: l)) = String c0 s).
    { destruct (enc_start a) as (s & Hs). destruct l as [|b l].
      - now exists s.
      - exists (s +:+ "," +:+ String.concat "," (map enc (b :: l))).
        change (map enc (a :: b :: l)) with (enc a :: enc b :: map enc l).
        now rewrite concat_cons_cons, Hs. }
    destruct Hstart as (s & Hs). rewrite Hs in *. rewrite append_cons in *.
    now rewrite parse_value_start.
Qed.

End Arrays.

Lemma jFrames_ok (stack : Stack) :
  stack_ok stack -> Forall jsonFrame_ok (jFrames stack).
Proof.
  unfold stack_ok, jFrames. intros H. apply List.Forall_forall.
  intros f (frame & <- & Hin)%in_map_iff.
  eapply forallb_forall in H; [|exact Hin]. unfold encodable in H.
  apply andb_true_iff in H as [H _]. apply andb_true_iff in H as [H _].
  apply andb_true_iff in H as [Hfn Hfile]. now split.
Qed.

Lemma parse_value_stack (stack : Stack) (fuel : nat) (rest : string) :
  stack_ok stack ->
  (String.length (Stack_MarshalJSON stack) <= fuel)%nat ->
  parse_value fuel (Stack_MarshalJSON stack +:+ rest)
  = Some (stack_value stack, rest).
Proof.
  intros Hok Hfuel. unfold Stack_MarshalJSON in *.
  apply (parse_value_array json_Marshal_jsonFrame frame_value jsonFrame_ok "{").
  - intros f fuel' rest' [Hfn Hfile] Hlen.
    apply parse_value_frame; [exact Hfn | exact Hfile |].
    pose proof (json_Marshal_jsonFrame_length f). lia.
  - intros f. rewrite <- (append_nil_r (json_Marshal_jsonFrame f)).
    rewrite json_Marshal_jsonFrame_text. eauto.
  - reflexivity.
  - now apply jFrames_ok.
  - exact Hfuel.
Qed.

Lemma json_parse_Stacks (s : Stacks) :
  Forall stack_ok s ->
  json_parse (json_Marshal_Stacks s) = Some (JArr (map stack_value s)).
Proof.
  intros Hok. unfold json_parse.
  rewrite <- (append_nil_r (json_Marshal_Stacks s)) at 2.
  unfold json_Marshal_Stacks.
  rewrite (parse_value_array Stack_MarshalJSON stack_value stack_ok "[").
  - reflexivity.
  - intros stack fuel rest. apply parse_value_stack.
  - intros stack. unfold Stack_MarshalJSON. rewrite append_cons. eauto.
  - reflexivity.
  - exact Hok.
  - lia.
Qed.

Lemma parse_int64_fmt_d (n : Z) :
  - 2 ^ 63 <= n <= 2 ^ 63 - 1 -> parse_int64 (fmt_d n) = Some n.
Proof.
  intros Hn. destruct (fmt_d_numeral n) as (c & ds & Heq & Hall & Hval & _).
  rewrite Heq. unfold parse_int64. destruct (Z.ltb_spec n 0) as [Hneg|Hpos].
  - rewrite append_cons, append_nil_l. rewrite Hval.
    replace (- Z.abs n) with n by lia.
    destruct (Z.leb_spec (- 2 ^ 63) n); [|lia].
    destruct (Z.leb_spec n (2 ^ 63 - 1)); [reflexivity | lia].
  - rewrite append_nil_l.
    assert (Hc : is_digit c = true)
      by (simpl in Hall; now apply andb_true_iff in Hall as [Hc _]).
    assert (Hsign : (match String c ds with
                     | String "-" t => (true, t)
                     | _ => (false, String c ds)
                     end) = (false, String c ds)).
    { destruct c as [[] [] [] [] [] [] [] []]; try discriminate Hc; reflexivity. }
    rewrite Hsign, Hval. replace (Z.abs n) with n by lia.
    destruct (Z.leb_spec (- 2 ^ 63) n); [|lia].
    destruct (Z.leb_spec n (2 ^ 63 - 1)); [reflexivity | lia].
Qed.

Lemma decode_member_function (st : Frame * bool) (s : string) :
  decode_member st ("function", JStr s)
  = (mkFrame s (File (fst st)) (Line (fst st)), snd st).
Proof. now destruct st. Qed.

Lemma decode_member_file (st : Frame * bool) (s : string) :
  decode_member st ("file", JStr s)
  = (mkFrame (Function (fst st)) s (Line (fst st)), snd st).
Proof. now destruct st. Qed.

Lemma decode_member_line (st : Frame * bool) (lit : string) :
  decode_member st ("line", JNum lit)
  = match parse_int64 lit with
    | Some n => (mkFrame (Function (fst st)) (File (fst st)) n, snd st)
    | None => (fst st, false)
    end.
Proof. now destruct st. Qed.

Lemma decode_Frame_value (frame : Frame) :
  encodable frame = true ->
  decode_Frame
    (frame_value (mkJsonFrame (Function frame) (File frame) (Line frame)))
  = (frame, true).
Proof.
  unfold encodable. intros H.
  apply andb_true_iff in H as [H Hhi]. apply andb_true_iff in H as [_ Hlo].
  unfold decode_Frame, frame_value. cbn [fold_left jFunction jFile jLine].
  rewrite decode_member_function, decode_member_file, decode_member_line.
  rewrite parse_int64_fmt_d by lia. now destruct frame.
Qed.

Lemma decode_Stack_value (stack : Stack) :
  stack_ok stack -> decode_Stack (stack_value stack) = (trimStack stack, true).
Proof.
  unfold stack_ok, stack_value, jFrames, decode_Stack.
  induction (trimStack stack) as [|frame frames IH]; [reflexivity|].
  cbn [forallb map]. intros [Hframe Hframes]%andb_true_iff.
  specialize (IH Hframes). injection IH as IHfst IHsnd.
  rewrite decode_Frame_value by exact Hframe. cbn [fst snd andb].
  now rewrite IHfst, IHsnd.
Qed.

Lemma decode_Stacks_value (s : Stacks) :
  Forall stack_ok s ->
  decode_Stacks (JArr (map stack_value s)) = (map trimStack s, true).
Proof.
  unfold decode_Stacks. induction 1 as [|stack s Hstack _ IH]; [reflexivity|].
  injection IH as IHfst IHsnd. cbn [map forallb].
  rewrite decode_Stack_value by exact Hstack. cbn [fst snd andb].
  now rewrite IHfst, IHsnd.
Qed.

Lemma json_Unmarshal_Marshal_Stacks (s : Stacks) :
  Forall stack_ok s ->
  json_Unmarshal_Stacks (json_Marshal_Stacks s) = (map trimStack s, true).
Proof.
  intros Hok. unfold json_Unmarshal_Stacks.
  now rewrite json_parse_Stacks, decode_Stacks_value.
Qed.

Lemma json_escape_no_line_break (t : string) :
  ascii_text t = true -> all_chars no_line_break (json_escape t) = true.
Proof.
  induction t as [|c t IH]; [reflexivity|].
  intros [Hc Ht]%andb_true_iff.
  rewrite (json_escape_byte c t Hc), all_chars_app, IH by exact Ht.
  now destruct (json_escape_byte_line c Hc) as [-> _].
Qed.

Lemma json_quote_no_line_break (t rest : string) :
  ascii_text t = true ->
  all_chars no_line_break (json_quote t +:+ rest)
  = all_chars no_line_break rest.
Proof.
  intros Ht. rewrite json_quote_cons. cbn [all_chars].
  rewrite all_chars_app, json_escape_no_line_break by exact Ht. reflexivity.
Qed.

Lemma digit_no_line_break (c : ascii) :
  is_digit c = true -> no_line_break c = true.
Proof.
  intros Hc. unfold no_line_break.
  pose proof (digit_not_LF c Hc) as HLF. pose proof (digit_not_CR c Hc) as HCR.
  unfold not_LF, not_CR in *. now rewrite HLF, HCR.
Qed.

Lemma fmt_d_no_line_break (n : Z) : all_chars no_line_break (fmt_d n) = true.
Proof.
  destruct (fmt_d_numeral n) as (c & ds & -> & Hall & _).
  rewrite all_chars_app.
  rewrite (all_chars_impl is_digit no_line_break _ digit_no_line_break Hall).
  now destruct (n <? 0).
Qed.

Lemma json_Marshal_jsonFrame_no_line_break (f : jsonFrame) :
  jsonFrame_ok f ->
  all_chars no_line_break (json_Marshal_jsonFrame f) = true.
Proof.
  intros [Hfn Hfile]. rewrite <- (append_nil_r (json_Marshal_jsonFrame f)).
  rewrite json_Marshal_jsonFrame_text.
  cbn [all_chars]. rewrite json_quote_no_line_break by reflexivity.
  cbn [all_chars]. rewrite json_quote_no_line_break by exact Hfn.
  cbn [all_chars]. rewrite json_quote_no_line_break by reflexivity.
  cbn [all_chars]. rewrite json_quote_no_line_break by exact Hfile.
  cbn [all_chars]. rewrite json_quote_no_line_break by reflexivity.
  cbn [all_chars]. now rewrite all_chars_app, fmt_d_no_line_break.
Qed.

Lemma concat_all_chars (P : ascii -> bool) (sep : string) (l : list string) :
  all_chars P sep = true -> Forall (fun t => all_chars P t = true) l ->
  all_chars P (String.concat sep l) = true.
Proof.
  intros Hsep. induction 1 as [|t l Ht Hl IH]; [reflexivity|].
  destruct l as [|u l]; [exact Ht|].
  now rewrite concat_cons_cons, !all_chars_app, Ht, Hsep, IH.
Qed.

Lemma Stack_MarshalJSON_no_line_break (stack : Stack) :
  stack_ok stack ->
  all_chars no_line_break (Stack_MarshalJSON stack) = true.
Proof.
  intros Hok. unfold Stack_MarshalJSON. rewrite !all_chars_app.
  rewrite concat_all_chars; [reflexivity | reflexivity |].
  apply Forall_map. eapply Forall_impl; [apply jFrames_ok, Hok|].
  apply json_Marshal_jsonFrame_no_line_break.
Qed.

Lemma json_Marshal_Stacks_no_line_break (s : Stacks) :
  Forall stack_ok s ->
  all_chars no_line_break (json_Marshal_Stacks s) = true.
Proof.
  intros Hok. unfold json_Marshal_Stacks. rewrite !all_chars_app.
  rewrite concat_all_chars; [reflexivity | reflexivity |].
  apply Forall_map. eapply Forall_impl; [exact Hok|].
  apply Stack_MarshalJSON_no_line_break.
Qed.

Lemma no_blank_line_no_LF (t : string) :
  all_chars not_LF t = true -> no_blank_line t = true.
Proof.
  induction t as [|a t IH]; [reflexivity|]. simpl all_chars.
  intros [Ha Ht]%andb_true_iff. destruct t as [|b t]; [reflexivity|].
  rewrite no_blank_line_cons, (not_LF_ascii_is a Ha). now rewrite IH.
Qed.

(** A text of one line that starts with a bracket has no console block. *)
Lemma ParseStacks_blocks_one_line (cs : string) (stacks : Stacks) :
  all_chars no_line_break (String "[" cs) = true ->
  ParseStacks_blocks (console_blocks (String "[" cs)) stacks = stacks.
Proof.
  intros Hline.
  assert (HLF : all_chars not_LF (String "[" cs) = true).
  { eapply all_chars_impl; [|exact Hline]. unfold no_line_break, not_LF.
    now intros c [H _]%andb_true_iff. }
  assert (HCR : all_chars not_CR (String "[" cs) = true).
  { eapply all_chars_impl; [|exact Hline]. unfold no_line_break, not_CR.
    now intros c [_ H]%andb_true_iff. }
  unfold console_blocks, strings_Split.
  rewrite normalize_newlines_id by exact HCR.
  rewrite Split_no_blank_line by now apply no_blank_line_no_LF.
  rewrite append_nil_l. apply ParseStacks_blocks_no_match.
  constructor; [|constructor]. unfold FindAllStringSubmatch.
  destruct (FindAll_plain_line (String "[" cs) None "[" cs "" 0 eq_refl HLF I)
    as (q & _ & Hfind).
  rewrite append_nil_r in Hfind. exact Hfind.
Qed.

(** X23. Round trip through the structured form.  For a set of stacks
    whose frames, once the trailing runtime frames of each stack are
    dropped, have a function and a file made of ASCII bytes and a line in
    the range of a 64-bit [int], [ParseStacks] reads the JSON text of the
    set (the text of [FormatStacksJson], every stack encoded by
    [Stack.MarshalJSON]) back as the same stacks, each without its trailing
    runtime frames.  This holds whether or not the decode is accepted: a
    set whose first stack is empty, or whose first frame has no file, falls
    through to the console reading, which finds no block in a text of one
    line and returns what the decode stored. *)
Theorem ParseStacks_json_Marshal_Stacks (s : Stacks) :
  Forall (fun stack => forallb encodable (trimStack stack) = true) s ->
  ParseStacks (json_Marshal_Stacks s) = map trimStack s.
Proof.
  intros Hok. unfold ParseStacks.
  rewrite (json_Unmarshal_Marshal_Stacks s Hok). cbn [andb].
  destruct (decode_accepted (map trimStack s)); [reflexivity|].
  pose proof (json_Marshal_Stacks_no_line_break s Hok) as Hline.
  unfold json_Marshal_Stacks in *. rewrite append_cons, append_nil_l in *.
  now apply ParseStacks_blocks_one_line.
Qed.

Lemma ParseStacks_json_Marshal_Stacks_witness :
  ParseStacks
    (json_Marshal_Stacks
       [[mkFrame "main.T.f<-chan" "C:\src\a&b.go" 3;
         mkFrame "runtime.main" "proc.go" 250];
        [];
        [mkFrame "main.g" "" (-1)]])
  = [[mkFrame "main.T.f<-chan" "C:\src\a&b.go" 3];
     [];
     [mkFrame "main.g" "" (-1)]].
Proof.
  apply (ParseStacks_json_Marshal_Stacks
           [[mkFrame "main.T.f<-chan" "C:\src\a&b.go" 3;
             mkFrame "runtime.main" "proc.go" 250];
            [];
            [mkFrame "main.g" "" (-1)]]).
  repeat constructor.
Defined.
